(** * DGtal: NeighborhoodConvexityAnalyzer and ConvexityHelper

    A shallow embedding of
    [src/DGtal/geometry/volumes/NeighborhoodConvexityAnalyzer.h] (the
    memoizing analyzer of a (2K+1)^d neighborhood) and of the facet/ridge
    extraction of [src/DGtal/geometry/volumes/ConvexityHelper.h], with the
    properties of the specification stated and proved over it. *)

From Stdlib Require Import ZArith Bool Lia.
From stdpp Require Import base list gmap.

Local Open Scope Z_scope.

(** ** Bit masks

    [myComputations] and [myResults] are C++ [int]s that are only ever
    combined with [|=] and [&] against the constants of [enum Computation];
    both operations keep a 32-bit operand within its range, so the masks are
    read as integers with [Z.lor] and [Z.land]. *)

Module Bits.

(** [bool( x )] on an [int]: true iff non-zero. *)
Definition int_to_bool (x : Z) : bool := negb (x =? 0).

(** Every bit set in [r] is set in [c]. *)
Definition mask_incl (r c : Z) : Prop :=
  ∀ n : Z, Z.testbit r n = true → Z.testbit c n = true.

End Bits.

Import Bits.

(** ** The analyzer: data model *)

Module NeighborhoodConvexityAnalyzer.

(** [KSpace::Point]: the integer coordinates of a lattice point. *)
Definition Point : Type := list Z.
(** [std::vector<Point>]. *)
Definition PointRange : Type := list Point.

(** [HyperRectDomain<Space>], given by its lowest and highest points. *)
Record Domain : Type := mkDomain {
  lowerBound : Point;
  upperBound : Point
}.

(** The two tests of [DigitalConvexity<KSpace>] that the analyzer calls.
    The class is declared in [DGtal/geometry/volumes/DigitalConvexity.h],
    which is not among the sources; it is taken as a parameter of the
    analyzer: two functions of the point range they are given. *)
Record DigitalConvexity : Type := mkDigitalConvexity {
  dc_isFullyConvex : PointRange → bool;
  dc_is0Convex : PointRange → bool
}.

(** [enum Computation]. *)
Inductive Computation : Type :=
| FullConvexity_X_with_center
| FullConvexity_X_without_center
| FullConvexity_CompX_with_center
| FullConvexity_CompX_without_center
| Convexity_X_with_center
| Convexity_X_without_center
| Convexity_CompX_with_center
| Convexity_CompX_without_center.

(** The enumerators' values, [0x1] to [0x80]. *)
Definition mask_of (c : Computation) : Z :=
  match c with
  | FullConvexity_X_with_center        => 0x1
  | FullConvexity_X_without_center     => 0x2
  | FullConvexity_CompX_with_center    => 0x4
  | FullConvexity_CompX_without_center => 0x8
  | Convexity_X_with_center            => 0x10
  | Convexity_X_without_center         => 0x20
  | Convexity_CompX_with_center        => 0x40
  | Convexity_CompX_without_center     => 0x80
  end.

(** The data members of the class. *)
Record Analyzer : Type := mkAnalyzer {
  myDomain : Domain;
  myDigConv : DigitalConvexity;
  myCenter : Point;
  myLocalX : PointRange;
  myLocalCompX : PointRange;
  myCenterInX : bool;
  myComputations : Z;
  myResults : Z
}.

(** *** Member updates *)

Definition set_myCenter (c : Point) (s : Analyzer) : Analyzer :=
  mkAnalyzer (myDomain s) (myDigConv s) c (myLocalX s) (myLocalCompX s)
             (myCenterInX s) (myComputations s) (myResults s).

Definition set_myLocalX (l : PointRange) (s : Analyzer) : Analyzer :=
  mkAnalyzer (myDomain s) (myDigConv s) (myCenter s) l (myLocalCompX s)
             (myCenterInX s) (myComputations s) (myResults s).

Definition set_myLocalCompX (l : PointRange) (s : Analyzer) : Analyzer :=
  mkAnalyzer (myDomain s) (myDigConv s) (myCenter s) (myLocalX s) l
             (myCenterInX s) (myComputations s) (myResults s).

Definition set_myCenterInX (b : bool) (s : Analyzer) : Analyzer :=
  mkAnalyzer (myDomain s) (myDigConv s) (myCenter s) (myLocalX s)
             (myLocalCompX s) b (myComputations s) (myResults s).

Definition set_myComputations (v : Z) (s : Analyzer) : Analyzer :=
  mkAnalyzer (myDomain s) (myDigConv s) (myCenter s) (myLocalX s)
             (myLocalCompX s) (myCenterInX s) v (myResults s).

Definition set_myResults (v : Z) (s : Analyzer) : Analyzer :=
  mkAnalyzer (myDomain s) (myDigConv s) (myCenter s) (myLocalX s)
             (myLocalCompX s) (myCenterInX s) (myComputations s) v.

(** ** Methods

    A non-const method is a function of the object's state that gives back
    its return value, the new state, and the calls it made to [myDigConv]
    in order.  The log is there to count oracle calls; the program has no
    such member. *)

Inductive OracleCall : Type :=
| Call_isFullyConvex (pts : PointRange)
| Call_is0Convex (pts : PointRange).

Definition Outcome (A : Type) : Type := (A * Analyzer * list OracleCall)%type.

Definition retval {A} (o : Outcome A) : A := o.1.1.
Definition state_of {A} (o : Outcome A) : Analyzer := o.1.2.
Definition calls {A} (o : Outcome A) : list OracleCall := o.2.

Definition Method (A : Type) : Type := Analyzer → Outcome A.

Definition ret {A} (a : A) : Method A := λ s, (a, s, []).

Definition bind {A B} (m : Method A) (k : A → Method B) : Method B :=
  λ s, let o1 := m s in
       let o2 := k (retval o1) (state_of o1) in
       (retval o2, state_of o2, calls o1 ++ calls o2).

Notation "'let*' x ':=' m 'in' k" := (bind m (λ x, k))
  (at level 10, x name, m at level 100, k at level 200).
Notation "m ';;;' k" := (bind m (λ _, k))
  (at level 100, k at level 200, right associativity).

Definition get : Method Analyzer := λ s, (s, s, []).
Definition modify (f : Analyzer → Analyzer) : Method unit := λ s, (tt, f s, []).

(** [if ( b ) stmt;] *)
Definition when (b : bool) (m : Method unit) : Method unit :=
  if b then m else ret tt.

(** [myLocalX.push_back( p )] and [myLocalX.pop_back()]; likewise for
    [myLocalCompX].  [pop_back] on an empty vector is undefined in C++; the
    methods below only pop what they have just pushed. *)
Definition push_back_myLocalX (p : Point) : Method unit :=
  modify (λ s, set_myLocalX (myLocalX s ++ [p]) s).
Definition pop_back_myLocalX : Method unit :=
  modify (λ s, set_myLocalX (removelast (myLocalX s)) s).
Definition push_back_myLocalCompX (p : Point) : Method unit :=
  modify (λ s, set_myLocalCompX (myLocalCompX s ++ [p]) s).
Definition pop_back_myLocalCompX : Method unit :=
  modify (λ s, set_myLocalCompX (removelast (myLocalCompX s)) s).

(** [myComputations |= mask] and [myResults |= mask]. *)
Definition or_myComputations (mask : Z) : Method unit :=
  modify (λ s, set_myComputations (Z.lor (myComputations s) mask) s).
Definition or_myResults (mask : Z) : Method unit :=
  modify (λ s, set_myResults (Z.lor (myResults s) mask) s).

(** [myDigConv.isFullyConvex( pts )] and [myDigConv.is0Convex( pts )]. *)
Definition myDigConv_isFullyConvex (pts : PointRange) : Method bool :=
  λ s, (dc_isFullyConvex (myDigConv s) pts, s, [Call_isFullyConvex pts]).
Definition myDigConv_is0Convex (pts : PointRange) : Method bool :=
  λ s, (dc_is0Convex (myDigConv s) pts, s, [Call_is0Convex pts]).

(** *** Constructors

    Both set the domain and the oracle and zero the two masks.  The vectors
    start empty.  [myCenter] and [myCenterInX] are not mentioned by the
    constructors: the values they start with are arguments here. *)

(** [NeighborhoodConvexityAnalyzer( Point lo, Point hi )]; [dc] stands for
    the oracle [myDigConv( lo, hi )]. *)
Definition construct (lo hi : Point) (dc : DigitalConvexity)
    (center0 : Point) (centerInX0 : bool) : Analyzer :=
  {| myDomain := mkDomain lo hi;
     myDigConv := dc;
     myCenter := center0;
     myLocalX := [];
     myLocalCompX := [];
     myCenterInX := centerInX0;
     myComputations := 0;
     myResults := 0 |}.

(** [KSpace]: of the cellular grid space only its two bounds are read. *)
Record KSpace : Type := mkKSpace {
  space_lowerBound : Point;
  space_upperBound : Point
}.

(** [NeighborhoodConvexityAnalyzer( Clone<KSpace> aKSpace )]; [dc] stands
    for the oracle [myDigConv( aKSpace )]. *)
Definition construct_from_space (aKSpace : KSpace) (dc : DigitalConvexity)
    (center0 : Point) (centerInX0 : bool) : Analyzer :=
  {| myDomain := mkDomain (space_lowerBound aKSpace) (space_upperBound aKSpace);
     myDigConv := dc;
     myCenter := center0;
     myLocalX := [];
     myLocalCompX := [];
     myCenterInX := centerInX0;
     myComputations := 0;
     myResults := 0 |}.

(** [NeighborhoodConvexityAnalyzer() = default]: every member is
    default-initialised.  The two vectors start empty.  [myDomain],
    [myDigConv] and [myCenter] get what their own default constructors
    give, and [myCenterInX], [myComputations] and [myResults], of built-in
    types and without initialisers, are not initialised at all: the values
    that all six start with are arguments here. *)
Definition construct_default (domain0 : Domain) (dc0 : DigitalConvexity)
    (center0 : Point) (centerInX0 : bool) (computations0 results0 : Z)
    : Analyzer :=
  {| myDomain := domain0;
     myDigConv := dc0;
     myCenter := center0;
     myLocalX := [];
     myLocalCompX := [];
     myCenterInX := centerInX0;
     myComputations := computations0;
     myResults := results0 |}.

(** [center()] and [isCenterInX()]. *)
Definition center (s : Analyzer) : Point := myCenter s.
Definition isCenterInX (s : Analyzer) : bool := myCenterInX s.

(** *** The four memoizing predicates *)

Definition isFullyConvex (with_center : bool) : Method bool :=
  let mask := if with_center
              then mask_of FullConvexity_X_with_center
              else mask_of FullConvexity_X_without_center in
  let* s := get in
  if int_to_bool (Z.land (myComputations s) mask)
  then ret (int_to_bool (Z.land (myResults s) mask))
  else
    when with_center (push_back_myLocalX (center s)) ;;;
    let* s1 := get in
    let* ok := myDigConv_isFullyConvex (myLocalX s1) in
    when with_center pop_back_myLocalX ;;;
    or_myComputations mask ;;;
    when ok (or_myResults mask) ;;;
    ret ok.

Definition isComplementaryFullyConvex (with_center : bool) : Method bool :=
  let mask := if with_center
              then mask_of FullConvexity_CompX_with_center
              else mask_of FullConvexity_CompX_without_center in
  let* s := get in
  if int_to_bool (Z.land (myComputations s) mask)
  then ret (int_to_bool (Z.land (myResults s) mask))
  else
    when with_center (push_back_myLocalCompX (center s)) ;;;
    let* s1 := get in
    let* ok := myDigConv_isFullyConvex (myLocalCompX s1) in
    when with_center pop_back_myLocalCompX ;;;
    or_myComputations mask ;;;
    when ok (or_myResults mask) ;;;
    ret ok.

(** As in the source, [is0Convex] and [isComplementary0Convex] take their
    masks from the [FullConvexity_*] enumerators. *)
Definition is0Convex (with_center : bool) : Method bool :=
  let mask := if with_center
              then mask_of FullConvexity_X_with_center
              else mask_of FullConvexity_X_without_center in
  let* s := get in
  if int_to_bool (Z.land (myComputations s) mask)
  then ret (int_to_bool (Z.land (myResults s) mask))
  else
    when with_center (push_back_myLocalX (center s)) ;;;
    let* s1 := get in
    let* ok := myDigConv_is0Convex (myLocalX s1) in
    when with_center pop_back_myLocalX ;;;
    or_myComputations mask ;;;
    when ok (or_myResults mask) ;;;
    ret ok.

Definition isComplementary0Convex (with_center : bool) : Method bool :=
  let mask := if with_center
              then mask_of FullConvexity_CompX_with_center
              else mask_of FullConvexity_CompX_without_center in
  let* s := get in
  if int_to_bool (Z.land (myComputations s) mask)
  then ret (int_to_bool (Z.land (myResults s) mask))
  else
    when with_center (push_back_myLocalCompX (center s)) ;;;
    let* s1 := get in
    let* ok := myDigConv_is0Convex (myLocalCompX s1) in
    when with_center pop_back_myLocalCompX ;;;
    or_myComputations mask ;;;
    when ok (or_myResults mask) ;;;
    ret ok.

(** [a && b] on two method calls: [b] runs only if [a] gave true. *)
Definition and_then (a b : Method bool) : Method bool :=
  let* x := a in if x then b else ret false.

(** [myLocalX.empty()]. *)
Definition empty (l : PointRange) : bool :=
  match l with [] => true | _ => false end.

Definition isFullyConvexCollapsible : Method bool :=
  let* s := get in
  if isCenterInX s
  then and_then (and_then (ret (negb (empty (myLocalX s))))
                          (isFullyConvex true))
                (isFullyConvex false)
  else and_then (and_then (ret (negb (empty (myLocalCompX s))))
                          (isComplementaryFullyConvex true))
                (isComplementaryFullyConvex false).

(** *** One memoized call, in one step

    What a call of one of the four predicates comes to, given its mask,
    whether it reads [myLocalCompX] rather than [myLocalX], and the oracle
    test it calls ([entry] is the test's log entry).  The lemmas
    [isFullyConvex_memoized] and the like show that each predicate is this
    function at its own parameters. *)
Definition memoized (mask : Z) (complement : bool)
    (test : DigitalConvexity → PointRange → bool)
    (entry : PointRange → OracleCall)
    (with_center : bool) (s : Analyzer) : Outcome bool :=
  if int_to_bool (Z.land (myComputations s) mask)
  then (int_to_bool (Z.land (myResults s) mask), s, [])
  else
    let l := if complement then myLocalCompX s else myLocalX s in
    let pts := if with_center then l ++ [myCenter s] else l in
    let ok := test (myDigConv s) pts in
    (ok,
     set_myResults (if ok then Z.lor (myResults s) mask else myResults s)
       (set_myComputations (Z.lor (myComputations s) mask) s),
     [entry pts]).

(** [s'] differs from [s] in the two masks at most. *)
Definition same_but_masks (s s' : Analyzer) : Prop :=
  myLocalX s' = myLocalX s
  ∧ myLocalCompX s' = myLocalCompX s
  ∧ myCenter s' = myCenter s
  ∧ myCenterInX s' = myCenterInX s
  ∧ myDomain s' = myDomain s
  ∧ myDigConv s' = myDigConv s.

(** The method [m] keeps the property [P] of the state. *)
Definition preserves {A} (P : Analyzer → Prop) (m : Method A) : Prop :=
  ∀ s, P s → P (state_of (m s)).

(** *** Sequences of calls *)

(** A call of one of the five predicates. *)
Inductive Query : Type :=
| Q_isFullyConvex (with_center : bool)
| Q_isComplementaryFullyConvex (with_center : bool)
| Q_is0Convex (with_center : bool)
| Q_isComplementary0Convex (with_center : bool)
| Q_isFullyConvexCollapsible.

Definition run_query (q : Query) : Method bool :=
  match q with
  | Q_isFullyConvex b => isFullyConvex b
  | Q_isComplementaryFullyConvex b => isComplementaryFullyConvex b
  | Q_is0Convex b => is0Convex b
  | Q_isComplementary0Convex b => isComplementary0Convex b
  | Q_isFullyConvexCollapsible => isFullyConvexCollapsible
  end.

(** The calls in order; the return values are dropped. *)
Fixpoint run_queries (qs : list Query) : Method unit :=
  match qs with
  | [] => ret tt
  | q :: qs' => run_query q ;;; run_queries qs'
  end.

Section Operations.

(** [setCenter] is declared in the header and defined in
    [NeighborhoodConvexityAnalyzer.ih]; a client's sequence of calls is
    read here for any re-centering method. *)
Variable recenter : Point → (Point → bool) → Method unit.

Inductive Operation : Type :=
| Op_setCenter (c : Point) (X : Point → bool)
| Op_query (q : Query).

Definition run_operation (o : Operation) : Method unit :=
  match o with
  | Op_setCenter c X => recenter c X
  | Op_query q => run_query q ;;; ret tt
  end.

Fixpoint run_operations (os : list Operation) : Method unit :=
  match os with
  | [] => ret tt
  | o :: os' => run_operation o ;;; run_operations os'
  end.

End Operations.

(** *** Re-centering *)

(** Modelled from the spec: the points of a [HyperRectDomain] from [lo] to
    [hi] (the domain's iteration is not among the sources): every point
    whose coordinates lie between those of [lo] and [hi], the first
    coordinate varying fastest. *)
Fixpoint box (lo hi : Point) : list Point :=
  match lo, hi with
  | l :: lo', h :: hi' =>
      p ← box lo' hi'; (λ x, x :: p) <$> seqZ l (h - l + 1)
  | _, _ => [[]]
  end.

(** [p] has one coordinate for each pair of coordinates of [lo] and [hi],
    and each lies between the two. *)
Fixpoint in_box (lo hi p : Point) : Prop :=
  match lo, hi with
  | l :: lo', h :: hi' =>
      match p with
      | x :: p' => l ≤ x ≤ h ∧ in_box lo' hi' p'
      | [] => False
      end
  | _, _ => p = []
  end.

(** Modelled from the spec: the window of [setCenter], the points within
    [K] of [c] along every axis, restricted to the analyzer's domain. *)
Definition window_lower (K : Z) (d : Domain) (c : Point) : Point :=
  zip_with Z.max ((λ x, x - K) <$> c) (lowerBound d).
Definition window_upper (K : Z) (d : Domain) (c : Point) : Point :=
  zip_with Z.min ((λ x, x + K) <$> c) (upperBound d).
Definition window (K : Z) (d : Domain) (c : Point) : list Point :=
  box (window_lower K d c) (window_upper K d c).

(** Modelled from the spec: one step of the scan of [setCenter]: the
    center is skipped, a point of X goes to the first list, any other
    point to the second. *)
Definition scan (c : Point) (X : Point → bool)
    (acc : PointRange * PointRange) (p : Point) : PointRange * PointRange :=
  if decide (p = c) then acc
  else if X p then (acc.1 ++ [p], acc.2)
  else (acc.1, acc.2 ++ [p]).

(** Modelled from the spec: [setCenter( c, X )], whose definition is in
    [NeighborhoodConvexityAnalyzer.ih], not among the sources.  It sets the
    center, asks [X] whether the center is in the shape, resets the two
    masks, and partitions the window around [c] (the center left out) into
    [myLocalX] and [myLocalCompX].  [K] is the class's template
    parameter. *)
Definition setCenter (K : Z) (c : Point) (X : Point → bool) : Method unit :=
  modify (set_myCenter c) ;;;
  modify (set_myCenterInX (X c)) ;;;
  modify (set_myComputations 0) ;;;
  modify (set_myResults 0) ;;;
  let* s := get in
  let parts := foldl (scan c X) ([], []) (window K (myDomain s) c) in
  modify (set_myLocalX parts.1) ;;;
  modify (set_myLocalCompX parts.2).

End NeighborhoodConvexityAnalyzer.

(** ** Concrete data for the examples below *)

Module Examples.

Import NeighborhoodConvexityAnalyzer.

(** An oracle stub for which no range is fully convex and every range is
    0-convex. *)
Definition stub : DigitalConvexity :=
  mkDigitalConvexity (λ _, false) (λ _, true).

(** The shape X = { (x, y) | x <= y } of the plane. *)
Definition shape (p : Point) : bool :=
  match p with
  | [x; y] => x <=? y
  | _ => false
  end.

(** An analyzer on the domain from (0,0) to (4,4), as constructed. *)
Definition fresh : Analyzer := construct [0; 0] [4; 4] stub [0; 0] false.

(** The same re-centered at (0,2) with K = 1. *)
Definition centered : Analyzer := state_of (setCenter 1 [0; 2] shape fresh).

(** The same re-centered at (0,2) with K = 0: the window is the center
    alone, so both lists are empty, and the center is in X. *)
Definition isolated : Analyzer := state_of (setCenter 0 [0; 2] shape fresh).

(** A default-constructed analyzer whose uninitialised masks happen to
    hold 0 in [myComputations] and [0x11] in [myResults]. *)
Definition default_constructed : Analyzer :=
  construct_default (mkDomain [0; 0] [4; 4]) stub [0; 0] false 0 0x11.

(** A client's calls: two re-centerings with predicate calls between and
    after them. *)
Definition session : list Operation :=
  [ Op_setCenter [0; 2] shape;
    Op_query (Q_isFullyConvex true);
    Op_query (Q_is0Convex false);
    Op_query Q_isFullyConvexCollapsible;
    Op_setCenter [4; 0] shape;
    Op_query (Q_isComplementary0Convex true) ].

End Examples.

(** ** ConvexityHelper: facets and ridges of a computed hull *)

Module ConvexityHelper.

Local Open Scope nat_scope.

(** [std::size_t] indices and ranges of them. *)
Abbreviation Index := nat.
Abbreviation IndexRange := (list nat).

(** [QHull::Ridge]: the pair of cells on the two sides of a face. *)
Abbreviation Ridge := (nat * nat)%type.

(** Modelled from the spec: the completion status of a hull run
    ([QuickHull.h] is not among the sources), increasing from
    [NotStarted] to [AllCompleted]. *)
Inductive Status : Type :=
| NotStarted
| VerticesCompleted
| AllCompleted.

(** Modelled from the spec: what a hull run exposes of one of its cells:
    the indices of its vertices, in the order the hull reports them, and
    the cells that share a ridge with it. *)
Record Cell : Type := mkCell {
  vertices : IndexRange;
  neighbors : list Index
}.

(** Modelled from the spec: a hull run, read through its status and its
    cells (the [QHull] template parameter of
    [computeFacetAndRidgeVertices]). *)
Record QHull : Type := mkQHull {
  status : Status;
  cells : list Cell
}.

(** The unordered pair of the cells [f] and [g]. *)
Definition make_ridge (f g : Index) : Ridge := (f `min` g, f `max` g).

(** Modelled from the spec: the ridges of a hull in the order they are
    met: cell by cell, and for each cell neighbor by neighbor. *)
Definition ridges (hull : QHull) : list Ridge :=
  mjoin (imap (λ f c, make_ridge f <$> neighbors c) (cells hull)).

(** The vertices of a cell given by its index; none for an index that is
    no cell's. *)
Definition vertices_of (hull : QHull) (f : Index) : IndexRange :=
  match cells hull !! f with
  | Some c => vertices c
  | None => []
  end.

(** Modelled from the spec: the vertices that the two cells of a ridge
    share. *)
Definition shared_vertices (hull : QHull) (r : Ridge) : IndexRange :=
  filter (λ v, v ∈ vertices_of hull r.2) (vertices_of hull r.1).

(** Modelled from the spec: one ridge of the enumeration: the first time a
    ridge is seen it gets the next unused facet index, and the vertices it
    shares become that facet's. *)
Definition visit (hull : QHull)
    (acc : gmap Ridge Index * list IndexRange) (r : Ridge)
    : gmap Ridge Index * list IndexRange :=
  match acc.1 !! r with
  | Some _ => acc
  | None => (<[r := length acc.2]> acc.1, acc.2 ++ [shared_vertices hull r])
  end.

(** What holds of the ridge map and the facet list once the ridges [seen]
    have been visited: the map is defined on those ridges exactly; the
    facet of a ridge holds the vertices the ridge shares; every facet is
    some ridge's; no two ridges have the same facet; and there are as many
    facets as ridges in the map. *)
Definition numbered (hull : QHull) (seen : list Ridge)
    (acc : gmap Ridge Index * list IndexRange) : Prop :=
  dom acc.1 = list_to_set seen
  ∧ (∀ r i, acc.1 !! r = Some i →
            acc.2 !! i = Some (shared_vertices hull r))
  ∧ (∀ i, i < length acc.2 → ∃ r, acc.1 !! r = Some i)
  ∧ (∀ r r' i, acc.1 !! r = Some i → acc.1 !! r' = Some i → r = r')
  ∧ length acc.2 = size acc.1.

(** Modelled from the spec: [computeFacetAndRidgeVertices], whose
    definition is in [ConvexityHelper.ih], not among the sources.  It gives
    [cell_vertices], [r2f] and [face_vertices], or nothing when the hull
    has not reached [AllCompleted] (the documented precondition). *)
Definition computeFacetAndRidgeVertices (hull : QHull)
    : option (list IndexRange * gmap Ridge Index * list IndexRange) :=
  match status hull with
  | AllCompleted =>
      let cell_vertices := vertices <$> cells hull in
      let faces := foldl (visit hull) (∅, []) (ridges hull) in
      Some (cell_vertices, faces.1, faces.2)
  | _ => None
  end.

(** The hull of a triangle in the plane: three edges, each between two of
    the three vertices and next to the two other edges. *)
Definition triangle : QHull :=
  mkQHull AllCompleted
    [ mkCell [0; 1] [1; 2]; mkCell [1; 2] [2; 0]; mkCell [2; 0] [0; 1] ].

End ConvexityHelper.

(** ** The analyzer: cache slots and the oracle calls of a sequence *)

Module Slots.

Import NeighborhoodConvexityAnalyzer.

#[global] Instance Computation_eq_dec : EqDecision Computation.
Proof. solve_decision. Defined.

(** The enumerator whose value a predicate takes as its mask (the first
    statement of each of the four methods); the composite predicate has no
    mask of its own. *)
Definition slot (q : Query) : option Computation :=
  match q with
  | Q_isFullyConvex with_center | Q_is0Convex with_center =>
      Some (if with_center then FullConvexity_X_with_center
            else FullConvexity_X_without_center)
  | Q_isComplementaryFullyConvex with_center
  | Q_isComplementary0Convex with_center =>
      Some (if with_center then FullConvexity_CompX_with_center
            else FullConvexity_CompX_without_center)
  | Q_isFullyConvexCollapsible => None
  end.

(** The oracle test a predicate calls and its log entry: the 0-convexity
    test for [is0Convex] and [isComplementary0Convex], the full convexity
    test for the others. *)
Definition oracle_test (zero : bool)
    : DigitalConvexity → PointRange → bool :=
  if zero then dc_is0Convex else dc_isFullyConvex.
Definition oracle_entry (zero : bool) : PointRange → OracleCall :=
  if zero then Call_is0Convex else Call_isFullyConvex.

(** The enumerators that the methods use. *)
Definition used_slots : list Computation :=
  [ FullConvexity_X_with_center; FullConvexity_X_without_center;
    FullConvexity_CompX_with_center; FullConvexity_CompX_without_center ].

(** [myComputations & mask] and [myResults & mask], as the methods read
    them. *)
Definition evaluated (c : Computation) (s : Analyzer) : bool :=
  int_to_bool (Z.land (myComputations s) (mask_of c)).
Definition recorded (c : Computation) (s : Analyzer) : bool :=
  int_to_bool (Z.land (myResults s) (mask_of c)).

(** How many of the used enumerators have their bit clear in
    [myComputations]. *)
Definition unevaluated_slots (s : Analyzer) : nat :=
  length (List.filter (λ c, negb (evaluated c s)) used_slots).

(** The range an oracle call was made on. *)
Definition oracle_argument (call : OracleCall) : PointRange :=
  match call with
  | Call_isFullyConvex pts | Call_is0Convex pts => pts
  end.

(** The two lists of the analyzer, each without and with the center at its
    end. *)
Definition neighborhood_ranges (s : Analyzer) : list PointRange :=
  [ myLocalX s; myLocalX s ++ [myCenter s];
    myLocalCompX s; myLocalCompX s ++ [myCenter s] ].

(** The two tests of the composite predicate on one list: the full
    convexity test with the center on the slot [c1], then, if it gave
    true, the test without the center on the slot [c2]. *)
Definition with_then_without (complement : bool) (c1 c2 : Computation)
    : Method bool :=
  λ s,
    let o1 := memoized (mask_of c1) complement dc_isFullyConvex
                Call_isFullyConvex true s in
    if retval o1
    then let o2 := memoized (mask_of c2) complement dc_isFullyConvex
                     Call_isFullyConvex false (state_of o1) in
         (retval o2, state_of o2, calls o1 ++ calls o2)
    else (false, state_of o1, calls o1).

(** A property of a run: of the state before, the state after and the
    oracle calls made in between. *)
Definition RunProperty : Type := Analyzer → Analyzer → list OracleCall → Prop.

(** Every run of the method [m] has the property [R]. *)
Definition follows {A} (R : RunProperty) (m : Method A) : Prop :=
  ∀ s, R s (state_of (m s)) (calls (m s)).

(** [R] holds of doing nothing and of two runs in a row when it holds of
    each. *)
Definition composable (R : RunProperty) : Prop :=
  (∀ s, R s s [])
  ∧ (∀ s1 s2 s3 l1 l2, R s1 s2 l1 → R s2 s3 l2 → R s1 s3 (l1 ++ l2)).

(** Each oracle call made balances one slot that became evaluated. *)
Definition pays_per_slot : RunProperty :=
  λ s s' l, (length l + unevaluated_slots s' = unevaluated_slots s)%nat.

(** Only the masks moved, and every oracle call was on one of the
    analyzer's ranges. *)
Definition asks_about_neighborhood : RunProperty :=
  λ s s' l,
    same_but_masks s s'
    ∧ Forall (λ call, oracle_argument call ∈ neighborhood_ranges s) l.

(** The masks gained bits among the four low ones, [myResults] no more
    than [myComputations]. *)
Definition gains_low_bits : RunProperty :=
  λ s s' _,
    ∃ d d', mask_incl d 0xF
            ∧ mask_incl d' d
            ∧ myComputations s' = Z.lor (myComputations s) d
            ∧ myResults s' = Z.lor (myResults s) d'.

(** From [s] to [s'] only the masks moved, and every used bit that was
    evaluated in [s] is evaluated in [s'] with the same recorded result. *)
Definition keeps_answers (s s' : Analyzer) : Prop :=
  same_but_masks s s'
  ∧ ∀ c, c ∈ used_slots → evaluated c s = true →
         evaluated c s' = true ∧ recorded c s' = recorded c s.

End Slots.

(** * Properties

    ** Bit masks *)

Module BitsFacts.

Lemma mask_incl_land (r c : Z) : mask_incl r c ↔ Z.land r c = r.
Proof.
  unfold mask_incl. split.
  - intros H. apply Z.bits_inj'. intros n _. rewrite Z.land_spec.
    destruct (Z.testbit r n) eqn:E; [ | reflexivity ].
    now rewrite (H n E).
  - intros H n Hn. rewrite <- H in Hn. rewrite Z.land_spec in Hn.
    now apply andb_true_iff in Hn.
Qed.

Lemma mask_incl_zero (c : Z) : mask_incl 0 c.
Proof. intros n H. rewrite Z.bits_0 in H. discriminate. Qed.

Lemma mask_incl_lor_r (r c m : Z) : mask_incl r c → mask_incl r (Z.lor c m).
Proof.
  intros H n Hn. rewrite Z.lor_spec. now rewrite (H n Hn).
Qed.

Lemma mask_incl_lor_both (r c m : Z) :
  mask_incl r c → mask_incl (Z.lor r m) (Z.lor c m).
Proof.
  intros H n Hn. rewrite Z.lor_spec in *.
  apply orb_true_iff in Hn as [Hn | Hn].
  - now rewrite (H n Hn).
  - rewrite Hn. apply orb_true_r.
Qed.

(** A mask that is not yet set in [c] is not set in any [r] within [c]. *)
Lemma land_zero_of_incl (r c m : Z) :
  mask_incl r c → Z.land c m = 0 → Z.land r m = 0.
Proof.
  intros H Hc. apply Z.bits_inj'. intros n _.
  rewrite Z.land_spec, Z.bits_0.
  destruct (Z.testbit r n) eqn:E; [ | reflexivity ].
  assert (Hn : Z.testbit (Z.land c m) n = false) by (rewrite Hc; apply Z.bits_0).
  rewrite Z.land_spec, (H n E) in Hn. exact Hn.
Qed.

Lemma land_lor_same (c m : Z) : Z.land (Z.lor c m) m = m.
Proof.
  apply Z.bits_inj'. intros n _. rewrite Z.land_spec, Z.lor_spec.
  destruct (Z.testbit c n), (Z.testbit m n); reflexivity.
Qed.

Lemma land_lor_other (c m m' : Z) :
  Z.land m m' = 0 → Z.land (Z.lor c m) m' = Z.land c m'.
Proof.
  intros H. rewrite Z.land_lor_distr_l, H. apply Z.lor_0_r.
Qed.

End BitsFacts.

Import BitsFacts.

(** ** The analyzer *)

Module AnalyzerFacts.

Import NeighborhoodConvexityAnalyzer.

(** Unfolds the method combinators down to pairs. *)
Ltac run_method :=
  unfold and_then, when, push_back_myLocalX, pop_back_myLocalX,
    push_back_myLocalCompX, pop_back_myLocalCompX, or_myComputations,
    or_myResults, myDigConv_isFullyConvex, myDigConv_is0Convex, modify, get,
    bind, ret, retval, state_of, calls, center, isCenterInX;
  cbn [fst snd].

Lemma removelast_push_back (l : PointRange) (p : Point) :
  removelast (l ++ [p]) = l.
Proof. apply removelast_last. Qed.

(** *** Each predicate is [memoized] at its own parameters *)

Ltac memoized_proof :=
  intros with_center s; unfold memoized;
  match goal with |- ?f _ _ = _ => unfold f end;
  run_method;
  destruct (int_to_bool _); [ reflexivity | ];
  destruct with_center; cbn;
  rewrite ?removelast_push_back; rewrite ?app_nil_r;
  match goal with |- context [if ?ok then _ else _] => destruct ok end;
  destruct s; reflexivity.

Lemma isFullyConvex_memoized with_center s :
  isFullyConvex with_center s =
  memoized (if with_center then 0x1 else 0x2) false
           dc_isFullyConvex Call_isFullyConvex with_center s.
Proof. revert with_center s. memoized_proof. Qed.

Lemma isComplementaryFullyConvex_memoized with_center s :
  isComplementaryFullyConvex with_center s =
  memoized (if with_center then 0x4 else 0x8) true
           dc_isFullyConvex Call_isFullyConvex with_center s.
Proof. revert with_center s. memoized_proof. Qed.

Lemma is0Convex_memoized with_center s :
  is0Convex with_center s =
  memoized (if with_center then 0x1 else 0x2) false
           dc_is0Convex Call_is0Convex with_center s.
Proof. revert with_center s. memoized_proof. Qed.

Lemma isComplementary0Convex_memoized with_center s :
  isComplementary0Convex with_center s =
  memoized (if with_center then 0x4 else 0x8) true
           dc_is0Convex Call_is0Convex with_center s.
Proof. revert with_center s. memoized_proof. Qed.

#[local] Arguments isFullyConvex : simpl never.
#[local] Arguments isComplementaryFullyConvex : simpl never.
#[local] Arguments is0Convex : simpl never.
#[local] Arguments isComplementary0Convex : simpl never.
#[local] Arguments memoized : simpl never.

(** *** Properties of one memoized call *)

Section Memoized.

Variables (mask : Z) (complement : bool)
          (test : DigitalConvexity → PointRange → bool)
          (entry : PointRange → OracleCall)
          (with_center : bool).

Abbreviation call := (memoized mask complement test entry with_center).

(** A call changes nothing but the two masks. *)
Lemma memoized_frame s :
  myLocalX (state_of (call s)) = myLocalX s
  ∧ myLocalCompX (state_of (call s)) = myLocalCompX s
  ∧ myCenter (state_of (call s)) = myCenter s
  ∧ myCenterInX (state_of (call s)) = myCenterInX s
  ∧ myDomain (state_of (call s)) = myDomain s
  ∧ myDigConv (state_of (call s)) = myDigConv s.
Proof.
  unfold memoized. destruct (int_to_bool _); cbn; repeat split; reflexivity.
Qed.

(** On a hit the stored bit is returned, nothing changes and the oracle
    is not called. *)
Lemma memoized_hit s :
  int_to_bool (Z.land (myComputations s) mask) = true →
  call s = (int_to_bool (Z.land (myResults s) mask), s, []).
Proof. intros H. unfold memoized. now rewrite H. Qed.

(** On a miss the oracle is called once, on the list with the center
    appended when asked for. *)
Lemma memoized_miss s :
  int_to_bool (Z.land (myComputations s) mask) = false →
  let l := if complement then myLocalCompX s else myLocalX s in
  let pts := if with_center then l ++ [myCenter s] else l in
  retval (call s) = test (myDigConv s) pts
  ∧ calls (call s) = [entry pts]
  ∧ myComputations (state_of (call s)) = Z.lor (myComputations s) mask
  ∧ myResults (state_of (call s)) =
      (if test (myDigConv s) pts then Z.lor (myResults s) mask
       else myResults s).
Proof.
  intros H. unfold memoized. rewrite H. cbn. repeat split; reflexivity.
Qed.

Lemma memoized_calls_le_1 s : (length (calls (call s)) ≤ 1)%nat.
Proof. unfold memoized. destruct (int_to_bool _); cbn; lia. Qed.

(** The inclusion of [myResults] in [myComputations] is kept. *)
Lemma memoized_mask_incl s :
  mask_incl (myResults s) (myComputations s) →
  mask_incl (myResults (state_of (call s)))
            (myComputations (state_of (call s))).
Proof.
  intros H. unfold memoized. destruct (int_to_bool _); cbn; [ exact H | ].
  destruct (test _ _); cbn.
  - now apply mask_incl_lor_both.
  - now apply mask_incl_lor_r.
Qed.

(** After a call the mask's bit is evaluated (for a non-zero mask). *)
Lemma memoized_evaluated s :
  mask ≠ 0 →
  int_to_bool (Z.land (myComputations (state_of (call s))) mask) = true.
Proof.
  intros Hm. unfold memoized.
  destruct (int_to_bool (Z.land (myComputations s) mask)) eqn:E; cbn.
  - exact E.
  - rewrite land_lor_same. unfold int_to_bool.
    apply negb_true_iff, Z.eqb_neq, Hm.
Qed.

(** The bit that a call leaves in [myResults] is the value it returned. *)
Lemma memoized_recorded s :
  mask ≠ 0 →
  mask_incl (myResults s) (myComputations s) →
  int_to_bool (Z.land (myResults (state_of (call s))) mask)
  = retval (call s).
Proof.
  intros Hm Hincl. unfold memoized.
  destruct (int_to_bool (Z.land (myComputations s) mask)) eqn:E; cbn.
  - reflexivity.
  - assert (Hc : Z.land (myComputations s) mask = 0).
    { unfold int_to_bool in E. apply negb_false_iff in E. lia. }
    destruct (test _ _); cbn.
    + rewrite land_lor_same. unfold int_to_bool.
      apply negb_true_iff, Z.eqb_neq, Hm.
    + rewrite (land_zero_of_incl _ _ _ Hincl Hc). reflexivity.
Qed.

(** A second call right after the first returns the same value from the
    cache. *)
Lemma memoized_twice s :
  mask ≠ 0 →
  mask_incl (myResults s) (myComputations s) →
  call (state_of (call s)) = (retval (call s), state_of (call s), []).
Proof.
  intros Hm Hincl.
  rewrite (memoized_hit _ (memoized_evaluated s Hm)).
  now rewrite memoized_recorded.
Qed.

(** A call with another mask, disjoint from [mask], does not change what
    this one finds in the cache. *)
Lemma memoized_other_bit mask' complement' test' entry' with_center' s :
  Z.land mask' mask = 0 →
  let s' := state_of (memoized mask' complement' test' entry' with_center' s) in
  Z.land (myComputations s') mask = Z.land (myComputations s) mask
  ∧ Z.land (myResults s') mask = Z.land (myResults s) mask.
Proof.
  intros Hd. unfold memoized. destruct (int_to_bool _); cbn; [ auto | ].
  destruct (test' _ _); cbn; rewrite ?(land_lor_other _ _ _ Hd); auto.
Qed.

(** What a call returns depends only on the list it reads, the center, the
    oracle and the mask's own bits. *)
Lemma memoized_retval_ext s s' :
  myLocalX s' = myLocalX s →
  myLocalCompX s' = myLocalCompX s →
  myCenter s' = myCenter s →
  myDigConv s' = myDigConv s →
  Z.land (myComputations s') mask = Z.land (myComputations s) mask →
  Z.land (myResults s') mask = Z.land (myResults s) mask →
  retval (call s') = retval (call s).
Proof.
  intros HX HC Hc Hd Hcomp Hres. unfold memoized.
  rewrite Hcomp, Hres, HX, HC, Hc, Hd.
  destruct (int_to_bool _); reflexivity.
Qed.

End Memoized.

(** Once a mask's bit is evaluated, a call with any oracle test on the same
    mask is answered from the cache. *)
Lemma memoized_then_any_test mask complement test entry with_center
    complement' test' entry' with_center' s :
  mask ≠ 0 →
  mask_incl (myResults s) (myComputations s) →
  let first := memoized mask complement test entry with_center s in
  memoized mask complement' test' entry' with_center' (state_of first)
  = (retval first, state_of first, []).
Proof.
  intros Hm Hincl first. subst first.
  rewrite (memoized_hit mask complement' test' entry' with_center' _
             (memoized_evaluated mask complement test entry with_center
                s Hm)).
  now rewrite memoized_recorded.
Qed.

(** *** Properties kept along a method *)

Lemma preserves_ret {A} (P : Analyzer → Prop) (a : A) : preserves P (ret a).
Proof. intros s H. exact H. Qed.

Lemma preserves_bind {A B} (P : Analyzer → Prop)
    (m : Method A) (k : A → Method B) :
  preserves P m → (∀ a, preserves P (k a)) → preserves P (bind m k).
Proof.
  intros Hm Hk s H. unfold bind, state_of at 1. cbn.
  apply Hk, Hm, H.
Qed.

Lemma preserves_and_then (P : Analyzer → Prop) (a b : Method bool) :
  preserves P a → preserves P b → preserves P (and_then a b).
Proof.
  intros Ha Hb. unfold and_then. apply preserves_bind; [ exact Ha | ].
  intros [|]; [ exact Hb | apply preserves_ret ].
Qed.

Lemma same_but_masks_refl s : same_but_masks s s.
Proof. unfold same_but_masks. tauto. Qed.

Lemma same_but_masks_trans s1 s2 s3 :
  same_but_masks s1 s2 → same_but_masks s2 s3 → same_but_masks s1 s3.
Proof.
  unfold same_but_masks.
  intros (H1 & H2 & H3 & H4 & H5 & H6) (G1 & G2 & G3 & G4 & G5 & G6).
  rewrite G1, G2, G3, G4, G5, G6. tauto.
Qed.

(** A method that only moves the masks from any state keeps the frame of
    any earlier state. *)
Lemma frame_preserved {A} (m : Method A) :
  (∀ s, same_but_masks s (state_of (m s))) →
  ∀ s0, preserves (same_but_masks s0) m.
Proof.
  intros H s0 s Hs. eapply same_but_masks_trans; [ exact Hs | apply H ].
Qed.

(** A property kept by memoized calls on the masks [0x1], [0x2], [0x4] and
    [0x8] is kept by all five predicates. *)
Lemma run_query_cases (P : Analyzer → Prop) :
  (∀ mask complement test entry with_center,
     mask ∈ [1; 2; 4; 8] →
     preserves P (memoized mask complement test entry with_center)) →
  ∀ q, preserves P (run_query q).
Proof.
  intros H.
  assert (Hm : ∀ b : bool, (if b then 1 else 2) ∈ [1; 2; 4; 8])
    by (intros [|]; repeat constructor).
  assert (Hm' : ∀ b : bool, (if b then 4 else 8) ∈ [1; 2; 4; 8])
    by (intros [|]; repeat constructor).
  intros [b | b | b | b | ]; cbn [run_query].
  - intros s. rewrite isFullyConvex_memoized. now apply H.
  - intros s. rewrite isComplementaryFullyConvex_memoized. now apply H.
  - intros s. rewrite is0Convex_memoized. now apply H.
  - intros s. rewrite isComplementary0Convex_memoized. now apply H.
  - assert (HF : ∀ b, preserves P (isFullyConvex b)).
    { intros b s. rewrite isFullyConvex_memoized. now apply H. }
    assert (HC : ∀ b, preserves P (isComplementaryFullyConvex b)).
    { intros b s. rewrite isComplementaryFullyConvex_memoized. now apply H. }
    unfold isFullyConvexCollapsible.
    apply preserves_bind; [ intros s Hs; exact Hs | ].
    intros s. destruct (isCenterInX s);
      repeat apply preserves_and_then; auto using preserves_ret.
Qed.

(** *** The predicates, one by one *)

(** No predicate changes anything but the masks. *)
Lemma run_query_frame (q : Query) (s : Analyzer) :
  same_but_masks s (state_of (run_query q s)).
Proof.
  apply (run_query_cases (same_but_masks s)); [ | apply same_but_masks_refl ].
  intros. apply frame_preserved. intros s'. apply memoized_frame.
Qed.

(** Every predicate keeps [myResults] within [myComputations]. *)
Lemma run_query_mask_incl (q : Query) :
  preserves (λ s, mask_incl (myResults s) (myComputations s)) (run_query q).
Proof.
  apply run_query_cases. intros. intros s. apply memoized_mask_incl.
Qed.

(** A predicate with a disjoint mask, run first, does not change what a
    memoized call returns. *)
Lemma memoized_after_other mask complement test entry with_center
    mask' complement' test' entry' with_center' s :
  Z.land mask' mask = 0 →
  retval (memoized mask complement test entry with_center
            (state_of (memoized mask' complement' test' entry' with_center' s)))
  = retval (memoized mask complement test entry with_center s).
Proof.
  intros Hd.
  destruct (memoized_frame mask' complement' test' entry' with_center' s)
    as (H1 & H2 & H3 & _ & _ & H6).
  destruct (memoized_other_bit mask mask' complement' test' entry'
              with_center' s Hd) as [Hc Hr].
  now apply memoized_retval_ext.
Qed.

(** C8. Each of the four predicates, for either value of [with_center],
    and the composite predicate too, leaves [myLocalX] and [myLocalCompX]
    exactly as they were, and with them the center, the center's
    membership, the domain and the oracle ([same_but_masks]).  On a cache
    miss with [with_center = true] the oracle is called once, on the
    relevant list with the center appended at its end; the list stored
    after the call is again the list without it. *)
Theorem predicates_restore_the_lists (q : Query) (s : Analyzer) :
  same_but_masks s (state_of (run_query q s))
  ∧ (Z.land (myComputations s) 0x1 = 0 →
     calls (isFullyConvex true s)
       = [Call_isFullyConvex (myLocalX s ++ [myCenter s])]
     ∧ calls (is0Convex true s)
       = [Call_is0Convex (myLocalX s ++ [myCenter s])])
  ∧ (Z.land (myComputations s) 0x4 = 0 →
     calls (isComplementaryFullyConvex true s)
       = [Call_isFullyConvex (myLocalCompX s ++ [myCenter s])]
     ∧ calls (isComplementary0Convex true s)
       = [Call_is0Convex (myLocalCompX s ++ [myCenter s])]).
Proof.
  split; [ apply run_query_frame | ].
  split; intros Hmiss.
  - rewrite isFullyConvex_memoized, is0Convex_memoized.
    split; apply memoized_miss; unfold int_to_bool; now rewrite Hmiss.
  - rewrite isComplementaryFullyConvex_memoized,
      isComplementary0Convex_memoized.
    split; apply memoized_miss; unfold int_to_bool; now rewrite Hmiss.
Qed.

Lemma predicates_restore_the_lists_witness :
  same_but_masks Examples.centered
    (state_of (run_query (Q_is0Convex true) Examples.centered))
  ∧ calls (isFullyConvex true Examples.centered)
    = [Call_isFullyConvex
         [[0; 1]; [1; 1]; [1; 2]; [0; 3]; [1; 3]; [0; 2]]].
Proof.
  pose proof (predicates_restore_the_lists (Q_is0Convex true)
                Examples.centered) as (Hframe & Hx & _).
  split; [ exact Hframe | ].
  apply (proj1 (Hx eq_refl)).
Defined.

(** C2. In a state whose recorded results lie within the evaluated bits
    (as in every state that follows a re-centering, which clears both
    masks), two calls of [isFullyConvex( true )] in a row return the same
    value, the second one makes no oracle call, and the two together make
    one at most. *)
Theorem isFullyConvex_true_twice (s : Analyzer) :
  mask_incl (myResults s) (myComputations s) →
  let first := isFullyConvex true s in
  let second := isFullyConvex true (state_of first) in
  retval second = retval first
  ∧ calls second = []
  ∧ (length (calls first ++ calls second) ≤ 1)%nat.
Proof.
  intros Hincl first second. subst first second.
  rewrite !isFullyConvex_memoized.
  rewrite (memoized_twice 1 false dc_isFullyConvex Call_isFullyConvex true s);
    [ | lia | exact Hincl ].
  cbn [retval calls fst snd]. rewrite app_nil_r.
  repeat split. apply memoized_calls_le_1.
Qed.

Lemma isFullyConvex_true_twice_witness :
  let first := isFullyConvex true Examples.centered in
  let second := isFullyConvex true (state_of first) in
  retval second = retval first
  ∧ calls second = []
  ∧ (length (calls first ++ calls second) ≤ 1)%nat.
Proof.
  apply (isFullyConvex_true_twice Examples.centered).
  apply mask_incl_land. reflexivity.
Defined.

(** C3. [isFullyConvexCollapsible()] returns, when the center is in X, the
    conjunction of "[myLocalX] is not empty", [isFullyConvex( true )] and
    [isFullyConvex( false )], and when it is not, the conjunction of
    "[myLocalCompX] is not empty", [isComplementaryFullyConvex( true )] and
    [isComplementaryFullyConvex( false )], each predicate read in the state
    in which the composite is called.  When the list in question is empty
    the result is false and the oracle is not called. *)
Theorem isFullyConvexCollapsible_iff (s : Analyzer) :
  retval (isFullyConvexCollapsible s)
  = (if myCenterInX s
     then negb (empty (myLocalX s))
          && retval (isFullyConvex true s)
          && retval (isFullyConvex false s)
     else negb (empty (myLocalCompX s))
          && retval (isComplementaryFullyConvex true s)
          && retval (isComplementaryFullyConvex false s))
  ∧ (myCenterInX s = true → myLocalX s = [] →
     retval (isFullyConvexCollapsible s) = false
     ∧ calls (isFullyConvexCollapsible s) = [])
  ∧ (myCenterInX s = false → myLocalCompX s = [] →
     retval (isFullyConvexCollapsible s) = false
     ∧ calls (isFullyConvexCollapsible s) = []).
Proof.
  split; [ | split ].
  - unfold isFullyConvexCollapsible. run_method.
    destruct (myCenterInX s).
    + destruct (negb (empty (myLocalX s))); cbn; [ | reflexivity ].
      rewrite !isFullyConvex_memoized.
      pose proof (memoized_after_other 2 false dc_isFullyConvex
                    Call_isFullyConvex false 1 false dc_isFullyConvex
                    Call_isFullyConvex true s eq_refl) as Hsame.
      unfold retval, state_of in Hsame.
      destruct (memoized 1 false _ _ true s).1.1 eqn:E1; cbn.
      * rewrite isFullyConvex_memoized. exact Hsame.
      * reflexivity.
    + destruct (negb (empty (myLocalCompX s))); cbn; [ | reflexivity ].
      rewrite !isComplementaryFullyConvex_memoized.
      pose proof (memoized_after_other 8 true dc_isFullyConvex
                    Call_isFullyConvex false 4 true dc_isFullyConvex
                    Call_isFullyConvex true s eq_refl) as Hsame.
      unfold retval, state_of in Hsame.
      destruct (memoized 4 true _ _ true s).1.1 eqn:E1; cbn.
      * rewrite isComplementaryFullyConvex_memoized. exact Hsame.
      * reflexivity.
  - intros Hin Hempty. unfold isFullyConvexCollapsible. run_method.
    rewrite Hin, Hempty. cbn. split; reflexivity.
  - intros Hin Hempty. unfold isFullyConvexCollapsible. run_method.
    rewrite Hin, Hempty. cbn. split; reflexivity.
Qed.

Lemma isFullyConvexCollapsible_iff_witness :
  retval (isFullyConvexCollapsible Examples.isolated) = false
  ∧ calls (isFullyConvexCollapsible Examples.isolated) = [].
Proof.
  apply (proj1 (proj2 (isFullyConvexCollapsible_iff Examples.isolated)));
    reflexivity.
Defined.

(** The composite in one step: nothing is done on an empty list; otherwise
    the test with the center runs (or is read from the cache), and the test
    without it only if the first gave true. *)
Lemma isFullyConvexCollapsible_outcome (s : Analyzer) :
  isFullyConvexCollapsible s =
  let complement := negb (myCenterInX s) in
  let m1 := if myCenterInX s then 0x1 else 0x4 in
  let m2 := if myCenterInX s then 0x2 else 0x8 in
  let l := if complement then myLocalCompX s else myLocalX s in
  if empty l then (false, s, [])
  else
    let o1 := memoized m1 complement dc_isFullyConvex Call_isFullyConvex
                true s in
    if retval o1
    then let o2 := memoized m2 complement dc_isFullyConvex
                     Call_isFullyConvex false (state_of o1) in
         (retval o2, state_of o2, calls o1 ++ calls o2)
    else (false, state_of o1, calls o1).
Proof.
  unfold isFullyConvexCollapsible. run_method.
  destruct (myCenterInX s); cbn [negb].
  - destruct (empty (myLocalX s)); cbn [negb]; [ reflexivity | ].
    rewrite isFullyConvex_memoized.
    destruct (memoized 1 false _ _ true s) as [[v1 s1] l1]. cbn [fst snd].
    destruct v1.
    + rewrite isFullyConvex_memoized. reflexivity.
    + cbn. now rewrite app_nil_r.
  - destruct (empty (myLocalCompX s)); cbn [negb]; [ reflexivity | ].
    rewrite isComplementaryFullyConvex_memoized.
    destruct (memoized 4 true _ _ true s) as [[v1 s1] l1]. cbn [fst snd].
    destruct v1.
    + rewrite isComplementaryFullyConvex_memoized. reflexivity.
    + cbn. now rewrite app_nil_r.
Qed.

(** In a state whose cache is empty the composite is the conjunction of the
    oracle's own answers on the list with and without the center. *)
Lemma isFullyConvexCollapsible_fresh (s : Analyzer) :
  myComputations s = 0 →
  retval (isFullyConvexCollapsible s)
  = (if myCenterInX s
     then negb (empty (myLocalX s))
          && dc_isFullyConvex (myDigConv s) (myLocalX s ++ [myCenter s])
          && dc_isFullyConvex (myDigConv s) (myLocalX s)
     else negb (empty (myLocalCompX s))
          && dc_isFullyConvex (myDigConv s) (myLocalCompX s ++ [myCenter s])
          && dc_isFullyConvex (myDigConv s) (myLocalCompX s)).
Proof.
  intros H0. rewrite isFullyConvexCollapsible_outcome. cbv zeta.
  unfold memoized, retval, state_of. rewrite H0.
  destruct (myCenterInX s); cbn [negb].
  - destruct (empty (myLocalX s)); cbn; [ reflexivity | ].
    destruct (dc_isFullyConvex _ (myLocalX s ++ _)); cbn; [ | reflexivity ].
    reflexivity.
  - destruct (empty (myLocalCompX s)); cbn; [ reflexivity | ].
    destruct (dc_isFullyConvex _ (myLocalCompX s ++ _)); cbn; [ | reflexivity ].
    reflexivity.
Qed.

(** *** The masks along a sequence of calls *)

Lemma run_operations_preserves (P : Analyzer → Prop)
    (recenter : Point → (Point → bool) → Method unit) :
  (∀ c X, preserves P (recenter c X)) →
  (∀ q, preserves P (run_query q)) →
  ∀ ops, preserves P (run_operations recenter ops).
Proof.
  intros Hre Hq ops. induction ops as [ | o ops IH ]; cbn [run_operations].
  - apply preserves_ret.
  - apply preserves_bind; [ | intros _; exact IH ].
    destruct o as [c X | q]; cbn [run_operation].
    + apply Hre.
    + apply preserves_bind; [ apply Hq | intros b; apply preserves_ret ].
Qed.

(** The two constructors that take arguments leave the two masks at zero;
    each predicate keeps every bit of [myResults] within [myComputations];
    hence the inclusion holds in every state reached from an analyzer so
    constructed by any sequence of predicate calls and re-centerings, for
    any re-centering method that keeps the inclusion itself (the specified
    [setCenter] clears both masks).  The default constructor is another
    matter: it does not set the masks. *)
Theorem results_within_computations
    (recenter : Point → (Point → bool) → Method unit)
    (lo hi : Point) (dc : DigitalConvexity)
    (center0 : Point) (centerInX0 : bool) (ops : list Operation) :
  (∀ c X,
     preserves (λ s, mask_incl (myResults s) (myComputations s))
               (recenter c X)) →
  let s0 := construct lo hi dc center0 centerInX0 in
  let s0' := construct_from_space (mkKSpace lo hi) dc center0 centerInX0 in
  (myComputations s0 = 0 ∧ myResults s0 = 0 ∧ s0' = s0)
  ∧ (∀ q s,
       mask_incl (myResults s) (myComputations s) →
       mask_incl (myResults (state_of (run_query q s)))
                 (myComputations (state_of (run_query q s))))
  ∧ mask_incl (myResults (state_of (run_operations recenter ops s0)))
              (myComputations (state_of (run_operations recenter ops s0))).
Proof.
  intros Hre s0 s0'. split; [ repeat split | split ].
  - intros q s. apply run_query_mask_incl.
  - apply (run_operations_preserves
             (λ s, mask_incl (myResults s) (myComputations s)) recenter).
    + exact Hre.
    + exact run_query_mask_incl.
    + apply mask_incl_zero.
Qed.

(** *** Re-centering *)

(** The points of a box are those within its bounds. *)
Lemma elem_of_box (lo hi p : Point) : p ∈ box lo hi ↔ in_box lo hi p.
Proof.
  revert hi p. induction lo as [ | l lo IH ]; intros hi p.
  - cbn. apply list_elem_of_singleton.
  - destruct hi as [ | h hi ]; [ cbn; apply list_elem_of_singleton | ].
    cbn [box in_box]. rewrite list_elem_of_bind. split.
    + intros (p' & Hp & Hp').
      apply list_elem_of_fmap in Hp as (x & -> & Hx).
      apply elem_of_seqZ in Hx. apply IH in Hp'. split; [ lia | exact Hp' ].
    + destruct p as [ | x p' ]; [ tauto | ]. intros [Hx Hp'].
      exists p'. split; [ | now apply IH ].
      apply list_elem_of_fmap. exists x. split; [ reflexivity | ].
      apply elem_of_seqZ. lia.
Qed.

(** For a center and a domain of the same dimension, the window holds the
    points within [K] of the center along every axis that lie in the
    domain. *)
Lemma elem_of_window (K : Z) (d : Domain) (c p : Point) :
  length (lowerBound d) = length c →
  length (upperBound d) = length c →
  p ∈ window K d c ↔
  in_box ((λ x, x - K) <$> c) ((λ x, x + K) <$> c) p
  ∧ in_box (lowerBound d) (upperBound d) p.
Proof.
  unfold window, window_lower, window_upper. rewrite elem_of_box.
  destruct d as [lo hi]. cbn [lowerBound upperBound].
  revert lo hi p. induction c as [ | x c IH ]; intros lo hi p Hlo Hhi.
  - destruct lo, hi; try discriminate. cbn. tauto.
  - destruct lo as [ | l lo ], hi as [ | h hi ]; try discriminate.
    cbn [fmap list_fmap zip_with in_box].
    destruct p as [ | y p ]; [ tauto | ].
    injection Hlo as Hlo. injection Hhi as Hhi.
    rewrite (IH lo hi p Hlo Hhi).
    split.
    + intros (Hy & Hc & Hd). split_and!; try assumption; lia.
    + intros ((Hy & Hc) & (Hy' & Hd)). split_and!; try assumption; lia.
Qed.

(** The scan adds to the first list the points of X other than the center,
    and to the second list those outside X, in the order scanned. *)
Lemma foldl_scan (c : Point) (X : Point → bool) (l : list Point)
    (acc : PointRange * PointRange) :
  foldl (scan c X) acc l
  = (acc.1 ++ filter (λ p, p ≠ c ∧ X p = true) l,
     acc.2 ++ filter (λ p, p ≠ c ∧ X p = false) l).
Proof.
  revert acc. induction l as [ | p l IH ]; intros [a1 a2].
  - cbn. now rewrite !app_nil_r.
  - cbn [foldl]. rewrite IH. unfold scan.
    destruct (decide (p = c)) as [-> | Hne].
    + rewrite !(filter_cons_False _ c) by tauto. reflexivity.
    + destruct (X p) eqn:HX; cbn [fst snd].
      * rewrite filter_cons_True by tauto.
        rewrite filter_cons_False by (intros [_ ?]; congruence).
        now rewrite <- app_assoc.
      * rewrite filter_cons_False by (intros [_ ?]; congruence).
        rewrite filter_cons_True by tauto.
        now rewrite <- app_assoc.
Qed.

(** The state that [setCenter] leaves: of the state before, only the
    domain and the oracle are read. *)
Lemma setCenter_state (K : Z) (c : Point) (X : Point → bool) (s : Analyzer) :
  state_of (setCenter K c X s)
  = {| myDomain := myDomain s;
       myDigConv := myDigConv s;
       myCenter := c;
       myLocalX :=
         filter (λ p, p ≠ c ∧ X p = true) (window K (myDomain s) c);
       myLocalCompX :=
         filter (λ p, p ≠ c ∧ X p = false) (window K (myDomain s) c);
       myCenterInX := X c;
       myComputations := 0;
       myResults := 0 |}
  ∧ calls (setCenter K c X s) = [].
Proof.
  unfold setCenter. run_method. cbn. rewrite foldl_scan. cbn. auto.
Qed.

Lemma setCenter_mask_incl (K : Z) (c : Point) (X : Point → bool) :
  preserves (λ s, mask_incl (myResults s) (myComputations s))
            (setCenter K c X).
Proof.
  intros s _. rewrite (proj1 (setCenter_state K c X s)). apply mask_incl_zero.
Qed.

Lemma run_queries_preserves (P : Analyzer → Prop) :
  (∀ q, preserves P (run_query q)) → ∀ qs, preserves P (run_queries qs).
Proof.
  intros Hq qs. induction qs as [ | q qs IH ]; cbn [run_queries].
  - apply preserves_ret.
  - apply preserves_bind; [ apply Hq | intros _; exact IH ].
Qed.

Lemma run_queries_frame (qs : list Query) (s : Analyzer) :
  same_but_masks s (state_of (run_queries qs s)).
Proof.
  apply (run_queries_preserves (same_but_masks s));
    [ | apply same_but_masks_refl ].
  intros q. apply frame_preserved. apply run_query_frame.
Qed.

(** C9. Whatever came before (a first [setCenter( c1, X )] and any
    predicate calls after it), [setCenter( c2, X )] leaves all eight bits of
    [enum Computation] unevaluated and both masks at zero, and its lists are
    the partition of the window around [c2]; the whole state is the one a
    newly constructed analyzer on the same domain gets from the same call,
    so nothing computed for [c1] is left. *)
Theorem setCenter_starts_afresh (K : Z) (s0 : Analyzer)
    (c1 c2 : Point) (X : Point → bool) (qs : list Query)
    (center0 : Point) (centerInX0 : bool) :
  let s1 := state_of (setCenter K c1 X s0) in
  let s := state_of (run_queries qs s1) in
  let s2 := state_of (setCenter K c2 X s) in
  (∀ m : Computation,
     int_to_bool (Z.land (myComputations s2) (mask_of m)) = false)
  ∧ myComputations s2 = 0
  ∧ myResults s2 = 0
  ∧ myCenter s2 = c2
  ∧ myCenterInX s2 = X c2
  ∧ (∀ p, p ∈ myLocalX s2 ↔
          p ∈ window K (myDomain s0) c2 ∧ p ≠ c2 ∧ X p = true)
  ∧ (∀ p, p ∈ myLocalCompX s2 ↔
          p ∈ window K (myDomain s0) c2 ∧ p ≠ c2 ∧ X p = false)
  ∧ s2 = state_of (setCenter K c2 X
                     (construct (lowerBound (myDomain s0))
                                (upperBound (myDomain s0))
                                (myDigConv s0) center0 centerInX0)).
Proof.
  intros s1 s s2.
  assert (Hdom : myDomain s = myDomain s0 ∧ myDigConv s = myDigConv s0).
  { destruct (run_queries_frame qs s1) as (_ & _ & _ & _ & Hd & Ho).
    fold s in Hd, Ho. rewrite Hd, Ho. subst s1.
    rewrite (proj1 (setCenter_state K c1 X s0)). auto. }
  destruct Hdom as [Hd Ho].
  assert (Hs2 : s2 = {| myDomain := myDomain s0;
       myDigConv := myDigConv s0;
       myCenter := c2;
       myLocalX :=
         filter (λ p, p ≠ c2 ∧ X p = true) (window K (myDomain s0) c2);
       myLocalCompX :=
         filter (λ p, p ≠ c2 ∧ X p = false) (window K (myDomain s0) c2);
       myCenterInX := X c2;
       myComputations := 0;
       myResults := 0 |}).
  { subst s2. rewrite (proj1 (setCenter_state K c2 X s)).
    now rewrite Hd, Ho. }
  rewrite Hs2. cbn [myComputations myResults myCenter myCenterInX myLocalX
                    myLocalCompX].
  repeat split.
  - apply list_elem_of_filter in H. tauto.
  - apply list_elem_of_filter in H. tauto.
  - apply list_elem_of_filter in H. tauto.
  - intros (Hw & Hne & HX). apply list_elem_of_filter. tauto.
  - apply list_elem_of_filter in H. tauto.
  - apply list_elem_of_filter in H. tauto.
  - apply list_elem_of_filter in H. tauto.
  - intros (Hw & Hne & HX). apply list_elem_of_filter. tauto.
  - rewrite (proj1 (setCenter_state K c2 X _)). cbn.
    destruct (myDomain s0). reflexivity.
Qed.

Lemma results_within_computations_witness :
  let s := state_of (run_operations (setCenter 1) Examples.session
                       Examples.fresh) in
  mask_incl (myResults s) (myComputations s).
Proof.
  apply (results_within_computations (setCenter 1) [0; 0] [4; 4]
           Examples.stub [0; 0] false Examples.session).
  intros c X. apply setCenter_mask_incl.
Defined.

(** *** The 0-convexity predicates and the cache *)

(** The predicates never touch the bits [0x10] to [0x80], those of the
    [Convexity_*] enumerators. *)
Lemma run_query_high_bits (q : Query) (s : Analyzer) :
  Z.land (myComputations (state_of (run_query q s))) 0xF0
  = Z.land (myComputations s) 0xF0
  ∧ Z.land (myResults (state_of (run_query q s))) 0xF0
    = Z.land (myResults s) 0xF0.
Proof.
  apply (run_query_cases
           (λ s', Z.land (myComputations s') 0xF0 = Z.land (myComputations s) 0xF0
                  ∧ Z.land (myResults s') 0xF0 = Z.land (myResults s) 0xF0));
    [ | split; reflexivity ].
  intros mask complement test entry with_center Hmask s' [Hc Hr].
  assert (Hd : Z.land mask 0xF0 = 0).
  { repeat (apply elem_of_cons in Hmask as [-> | Hmask]; [ reflexivity | ]).
    inversion Hmask. }
  destruct (memoized_other_bit 0xF0 mask complement test entry with_center
              s' Hd) as [Hc' Hr'].
  cbv zeta in Hc', Hr'. rewrite Hc', Hr'. auto.
Qed.

(** After [isFullyConvex( b )], [is0Convex( b )] returns the value of the
    former from the cache and does not call the oracle's 0-convexity
    test. *)
Lemma is0Convex_after_isFullyConvex (b : bool) (s : Analyzer) :
  mask_incl (myResults s) (myComputations s) →
  let first := isFullyConvex b s in
  is0Convex b (state_of first) = (retval first, state_of first, []).
Proof.
  intros Hincl first. subst first.
  rewrite is0Convex_memoized, isFullyConvex_memoized.
  apply memoized_then_any_test; [ destruct b; lia | exact Hincl ].
Qed.

(** C1, on the analyzer re-centered at (0,2) with an oracle for which the
    list is 0-convex and not fully convex: [isFullyConvex( false )] returns
    false after one oracle call; [is0Convex( false )], called next, finds
    the bit [0x2] evaluated, returns false and makes no oracle call, where
    the oracle's 0-convexity test on the same list gives true.  The bit
    [0x20] of [Convexity_X_without_center] is still unevaluated. *)
Lemma is0Convex_shares_the_slot_of_isFullyConvex :
  let s := Examples.centered in
  let first := isFullyConvex false s in
  let second := is0Convex false (state_of first) in
  myComputations s = 0
  ∧ retval first = false
  ∧ calls first = [Call_isFullyConvex (myLocalX s)]
  ∧ retval second = false
  ∧ calls second = []
  ∧ dc_is0Convex (myDigConv s) (myLocalX s) = true
  ∧ myComputations (state_of second)
    = mask_of FullConvexity_X_without_center
  ∧ Z.land (myComputations (state_of second))
           (mask_of Convexity_X_without_center) = 0.
Proof. vm_compute. repeat split. Qed.

(** *** The default constructor and the masks *)

(** From a default-constructed analyzer whose [myResults] happens to hold
    a bit among [0x10] to [0x80] that [myComputations] does not, no
    sequence of predicate calls brings [myResults] within
    [myComputations]. *)
Lemma default_constructed_stays_inconsistent
    (domain0 : Domain) (dc0 : DigitalConvexity) (center0 : Point)
    (centerInX0 : bool) (computations0 results0 : Z) (qs : list Query) :
  Z.land results0 0xF0 ≠ 0 →
  Z.land computations0 0xF0 = 0 →
  let s := state_of (run_queries qs
                       (construct_default domain0 dc0 center0 centerInX0
                          computations0 results0)) in
  ¬ mask_incl (myResults s) (myComputations s).
Proof.
  intros Hr Hc s Hincl.
  assert (Hkept : Z.land (myComputations s) 0xF0 = 0
                  ∧ Z.land (myResults s) 0xF0 = Z.land results0 0xF0).
  { apply (run_queries_preserves
             (λ s', Z.land (myComputations s') 0xF0 = 0
                    ∧ Z.land (myResults s') 0xF0 = Z.land results0 0xF0)).
    - intros q s' [Hc' Hr'].
      destruct (run_query_high_bits q s') as [Hc'' Hr''].
      now rewrite Hc'', Hr''.
    - cbn. auto. }
  destruct Hkept as [Hc' Hr']. apply Hr. rewrite <- Hr'.
  apply (land_zero_of_incl _ _ _ Hincl Hc').
Qed.

(** C10, on a default-constructed analyzer whose uninitialised masks hold
    0 and [0x11], with an oracle for which no range is fully convex.  The
    two masks are not zero after construction and [myResults] is not within
    [myComputations].  [isFullyConvex( true )] misses, asks the oracle and
    returns false; called again it hits and returns true, the bit that
    [myResults] held from the start.  After these calls [myResults] is
    still not within [myComputations] (bit [0x10]). *)
Lemma default_constructor_leaves_the_masks_unset :
  let s := Examples.default_constructed in
  let first := isFullyConvex true s in
  let second := isFullyConvex true (state_of first) in
  myComputations s = 0
  ∧ myResults s = 0x11
  ∧ ¬ mask_incl (myResults s) (myComputations s)
  ∧ retval first = false
  ∧ calls first = [Call_isFullyConvex [myCenter s]]
  ∧ retval second = true
  ∧ calls second = []
  ∧ ¬ mask_incl (myResults (state_of second))
                (myComputations (state_of second)).
Proof.
  cbv zeta. rewrite !mask_incl_land.
  vm_compute. repeat split; discriminate.
Qed.

End AnalyzerFacts.

(** ** ConvexityHelper *)

Module ConvexityHelperFacts.

Import ConvexityHelper.

Local Open Scope nat_scope.

Lemma elem_of_ridges (hull : QHull) (r : Ridge) :
  r ∈ ridges hull ↔
  ∃ f c g, cells hull !! f = Some c ∧ g ∈ neighbors c ∧ r = make_ridge f g.
Proof.
  unfold ridges. rewrite list_elem_of_join. split.
  - intros (l & Hr & Hl). apply elem_of_lookup_imap in Hl as (f & c & -> & Hc).
    apply list_elem_of_fmap in Hr as (g & -> & Hg).
    exists f, c, g. auto.
  - intros (f & c & g & Hc & Hg & ->).
    exists (make_ridge f <$> neighbors c). split.
    + apply list_elem_of_fmap. exists g. auto.
    + apply elem_of_lookup_imap. exists f, c. auto.
Qed.

Lemma numbered_start (hull : QHull) : numbered hull [] (∅, []).
Proof.
  unfold numbered. cbn. split_and!.
  - apply dom_empty_L.
  - intros r i H. rewrite lookup_empty in H. discriminate.
  - intros i H. lia.
  - intros r r' i H. rewrite lookup_empty in H. discriminate.
  - now rewrite map_size_empty.
Qed.

(** Visiting one more ridge keeps the numbering. *)
Lemma visit_numbered (hull : QHull) (seen : list Ridge)
    (acc : gmap Ridge Index * list IndexRange) (r : Ridge) :
  numbered hull seen acc → numbered hull (seen ++ [r]) (visit hull acc r).
Proof.
  destruct acc as [m fv]. unfold numbered, visit. cbn [fst snd].
  intros (Hdom & Hfv & Hsurj & Hinj & Hlen).
  destruct (m !! r) as [k | ] eqn:Hr; cbn [fst snd].
  - split_and!; try assumption.
    rewrite list_to_set_app_L, <- Hdom.
    assert (Hin : r ∈ dom m) by (apply elem_of_dom; eauto).
    apply set_eq. intros x.
    rewrite elem_of_union, elem_of_list_to_set, list_elem_of_singleton.
    split; [ auto | intros [Hx | ->]; assumption ].
  - split_and!.
    + rewrite dom_insert_L, list_to_set_app_L, Hdom.
      apply set_eq. intros x.
      rewrite !elem_of_union, elem_of_singleton, !elem_of_list_to_set,
        list_elem_of_singleton.
      tauto.
    + intros r0 i. rewrite lookup_insert. case_decide as Heq.
      * intros Hi. injection Hi as <-. subst r0.
        apply list_lookup_middle. reflexivity.
      * intros Hi. apply lookup_app_l_Some. now apply Hfv.
    + intros i. rewrite length_app. cbn. intros Hi.
      destruct (decide (i = length fv)) as [-> | Hne].
      * exists r. apply lookup_insert_eq.
      * destruct (Hsurj i) as [r0 Hr0]; [ lia | ].
        exists r0. rewrite lookup_insert_ne; [ exact Hr0 | ].
        congruence.
    + intros r1 r2 i. rewrite !lookup_insert.
      destruct (decide (r = r1)) as [E1 | H1], (decide (r = r2)) as [E2 | H2].
      * congruence.
      * intros Hi Hold. apply Hfv, lookup_lt_Some in Hold.
        injection Hi as Hi. lia.
      * intros Hold Hi. apply Hfv, lookup_lt_Some in Hold.
        injection Hi as Hi. lia.
      * apply Hinj.
    + rewrite length_app, map_size_insert_None by assumption. cbn. lia.
Qed.

Lemma foldl_visit_numbered (hull : QHull) (l seen : list Ridge)
    (acc : gmap Ridge Index * list IndexRange) :
  numbered hull seen acc →
  numbered hull (seen ++ l) (foldl (visit hull) acc l).
Proof.
  revert seen acc. induction l as [ | r l IH ]; intros seen acc H.
  - now rewrite app_nil_r.
  - cbn [foldl]. replace (seen ++ r :: l) with ((seen ++ [r]) ++ l)
      by now rewrite <- app_assoc.
    apply IH, visit_numbered, H.
Qed.

(** A ridge keeps the facet it has. *)
Lemma foldl_visit_keeps (hull : QHull) (l : list Ridge)
    (acc : gmap Ridge Index * list IndexRange) (r : Ridge) (i : Index) :
  acc.1 !! r = Some i → (foldl (visit hull) acc l).1 !! r = Some i.
Proof.
  revert acc. induction l as [ | r' l IH ]; intros acc H; [ exact H | ].
  cbn [foldl]. apply IH. unfold visit.
  destruct (acc.1 !! r') eqn:Hr'; [ exact H | ]. cbn [fst].
  rewrite lookup_insert_ne; [ exact H | congruence ].
Qed.

(** The first time a ridge is met it gets as its facet the number of
    different ridges met before it. *)
Lemma foldl_visit_first (hull : QHull) (before after : list Ridge)
    (r : Ridge) :
  r ∉ before →
  (foldl (visit hull) (∅, []) (before ++ r :: after)).1 !! r
  = Some (size (list_to_set before : gset Ridge)).
Proof.
  intros Hnew. rewrite foldl_app. cbn [foldl].
  pose proof (foldl_visit_numbered hull before [] (∅, [])
                (numbered_start hull)) as (Hdom & _ & _ & _ & Hlen).
  cbn [app] in Hdom.
  set (acc := foldl (visit hull) (∅, []) before) in *.
  apply foldl_visit_keeps. unfold visit.
  assert (Hr : acc.1 !! r = None).
  { apply not_elem_of_dom. rewrite Hdom. now rewrite elem_of_list_to_set. }
  rewrite Hr. cbn [fst]. rewrite lookup_insert_eq.
  now rewrite Hlen, <- size_dom, Hdom.
Qed.

(** C7. For a hull run that has reached [AllCompleted],
    [computeFacetAndRidgeVertices] gives its three outputs, and in them:
    every ridge of the hull (a cell and one of its neighbors) has exactly
    one facet index in [r2f], an index of [face_vertices]; every index of
    [face_vertices] is the facet of a ridge of the hull; only ridges of
    the hull are in [r2f], each with the vertices its two cells share as
    its facet's vertices; two different ridges never have the same facet;
    and a ridge met for the first time gets the number of different ridges
    met before it, so the facets are numbered in the order in which their
    ridges are first met. *)
Theorem ridge_facet_correspondence (hull : QHull) :
  status hull = AllCompleted →
  ∃ cell_vertices r2f face_vertices,
    computeFacetAndRidgeVertices hull
      = Some (cell_vertices, r2f, face_vertices)
    ∧ cell_vertices = vertices <$> cells hull
    ∧ (∀ f c g,
         cells hull !! f = Some c → g ∈ neighbors c →
         ∃ i, r2f !! make_ridge f g = Some i
              ∧ i < length face_vertices
              ∧ ∀ j, r2f !! make_ridge f g = Some j → j = i)
    ∧ (∀ i, i < length face_vertices →
            ∃ r, r ∈ ridges hull ∧ r2f !! r = Some i)
    ∧ (∀ r i, r2f !! r = Some i →
              r ∈ ridges hull
              ∧ face_vertices !! i = Some (shared_vertices hull r))
    ∧ (∀ r r' i, r2f !! r = Some i → r2f !! r' = Some i → r = r')
    ∧ (∀ before r after,
         ridges hull = before ++ r :: after → r ∉ before →
         r2f !! r = Some (size (list_to_set before : gset Ridge))).
Proof.
  intros Hstatus. unfold computeFacetAndRidgeVertices. rewrite Hstatus.
  pose proof (foldl_visit_numbered hull (ridges hull) [] (∅, [])
                (numbered_start hull)) as Hnum.
  cbn [app] in Hnum.
  pose proof (foldl_visit_first hull) as Hfirst.
  set (faces := foldl (visit hull) (∅, []) (ridges hull)) in *.
  destruct Hnum as (Hdom & Hfv & Hsurj & Hinj & Hlen).
  assert (Hin : ∀ r, r ∈ ridges hull ↔ is_Some (faces.1 !! r)).
  { intros r. rewrite <- elem_of_dom, Hdom. now rewrite elem_of_list_to_set. }
  exists (vertices <$> cells hull), faces.1, faces.2.
  split_and!; try reflexivity.
  - intros f c g Hc Hg.
    assert (Hr : make_ridge f g ∈ ridges hull).
    { apply elem_of_ridges. exists f, c, g. auto. }
    apply Hin in Hr as [i Hi]. exists i. split_and!.
    + exact Hi.
    + apply Hfv, lookup_lt_Some in Hi. exact Hi.
    + intros j Hj. congruence.
  - intros i Hi. destruct (Hsurj i Hi) as [r Hr].
    exists r. split; [ | exact Hr ]. apply Hin. now exists i.
  - intros r i Hr. split; [ apply Hin; now exists i | now apply Hfv ].
  - exact Hinj.
  - intros before r after Heq Hnew. subst faces. rewrite Heq.
    now apply Hfirst.
Qed.

Lemma ridge_facet_correspondence_witness :
  ∃ cell_vertices r2f face_vertices,
    computeFacetAndRidgeVertices triangle
      = Some (cell_vertices, r2f, face_vertices)
    ∧ cell_vertices = vertices <$> cells triangle
    ∧ (∀ f c g,
         cells triangle !! f = Some c → g ∈ neighbors c →
         ∃ i, r2f !! make_ridge f g = Some i
              ∧ i < length face_vertices
              ∧ ∀ j, r2f !! make_ridge f g = Some j → j = i)
    ∧ (∀ i, i < length face_vertices →
            ∃ r, r ∈ ridges triangle ∧ r2f !! r = Some i)
    ∧ (∀ r i, r2f !! r = Some i →
              r ∈ ridges triangle
              ∧ face_vertices !! i = Some (shared_vertices triangle r))
    ∧ (∀ r r' i, r2f !! r = Some i → r2f !! r' = Some i → r = r')
    ∧ (∀ before r after,
         ridges triangle = before ++ r :: after → r ∉ before →
         r2f !! r = Some (size (list_to_set before : gset Ridge))).
Proof.
  apply (ridge_facet_correspondence triangle). reflexivity.
Defined.

(** On the triangle: three ridges, numbered 0, 1 and 2 as they are met,
    each with the one vertex its two edges share. *)
Example triangle_facets :
  ridges triangle = [(0, 1); (0, 2); (1, 2); (0, 1); (0, 2); (1, 2)]
  ∧ ∃ cell_vertices r2f face_vertices,
      computeFacetAndRidgeVertices triangle
        = Some (cell_vertices, r2f, face_vertices)
      ∧ r2f !! (0, 1) = Some 0
      ∧ r2f !! (0, 2) = Some 1
      ∧ r2f !! (1, 2) = Some 2
      ∧ face_vertices = [[1]; [0]; [2]].
Proof.
  split; [ reflexivity | ].
  eexists _, _, _. split; [ reflexivity | ].
  split_and!; vm_compute; reflexivity.
Qed.

End ConvexityHelperFacts.

(** ** The analyzer: sequences of predicate calls *)

Module SessionFacts.

Import NeighborhoodConvexityAnalyzer Slots AnalyzerFacts.

#[local] Arguments isFullyConvex : simpl never.
#[local] Arguments isComplementaryFullyConvex : simpl never.
#[local] Arguments is0Convex : simpl never.
#[local] Arguments isComplementary0Convex : simpl never.
#[local] Arguments memoized : simpl never.

(** *** Run properties along the method combinators *)

Lemma follows_ret {A} (R : RunProperty) (a : A) :
  composable R → follows R (ret a).
Proof. intros [Hnil _] s. apply Hnil. Qed.

Lemma follows_bind {A B} (R : RunProperty) (m : Method A) (k : A → Method B) :
  composable R → follows R m → (∀ a, follows R (k a)) → follows R (bind m k).
Proof.
  intros [_ Happ] Hm Hk s. unfold bind, state_of at 1, calls at 1.
  cbn [fst snd]. eapply Happ; [ apply Hm | apply Hk ].
Qed.

Lemma follows_and_then (R : RunProperty) (a b : Method bool) :
  composable R → follows R a → follows R b → follows R (and_then a b).
Proof.
  intros HR Ha Hb. unfold and_then. apply follows_bind; auto.
  intros [|]; [ exact Hb | now apply follows_ret ].
Qed.

(** Each of the four accessors is a memoized call on its slot's mask. *)
Lemma accessor_memoized (q : Query) (c : Computation) :
  slot q = Some c →
  c ∈ used_slots
  ∧ ∃ complement zero with_center,
      ∀ s, run_query q s
           = memoized (mask_of c) complement (oracle_test zero)
                      (oracle_entry zero) with_center s.
Proof.
  destruct q as [b | b | b | b | ]; cbn [slot run_query];
    [ | | | | discriminate ];
    intros [= <-];
    (split; [ destruct b; unfold used_slots; repeat constructor | ]).
  - exists false, false, b. intros s.
    rewrite isFullyConvex_memoized. now destruct b.
  - exists true, false, b. intros s.
    rewrite isComplementaryFullyConvex_memoized. now destruct b.
  - exists false, true, b. intros s.
    rewrite is0Convex_memoized. now destruct b.
  - exists true, true, b. intros s.
    rewrite isComplementary0Convex_memoized. now destruct b.
Qed.

(** A composable property that holds of every memoized call on a used
    mask holds of every predicate and of every sequence of predicates. *)
Lemma follows_run_query (R : RunProperty) :
  composable R →
  (∀ c complement zero with_center,
     c ∈ used_slots →
     follows R (memoized (mask_of c) complement (oracle_test zero)
                         (oracle_entry zero) with_center)) →
  ∀ q, follows R (run_query q).
Proof.
  intros HR Hmemo.
  assert (Hacc : ∀ q c, slot q = Some c → follows R (run_query q)).
  { intros q c Hslot.
    destruct (accessor_memoized q c Hslot)
      as (Hc & complement & zero & b & Heq).
    intros s. rewrite Heq. now apply Hmemo. }
  intros q. destruct (slot q) as [c | ] eqn:Hslot; [ now apply (Hacc q c) | ].
  destruct q; try discriminate. cbn [run_query].
  assert (HF : ∀ b, follows R (isFullyConvex b))
    by (intros b; now apply (Hacc (Q_isFullyConvex b) _ eq_refl)).
  assert (HC : ∀ b, follows R (isComplementaryFullyConvex b))
    by (intros b; now apply (Hacc (Q_isComplementaryFullyConvex b) _ eq_refl)).
  unfold isFullyConvexCollapsible. apply follows_bind; [ exact HR | | ].
  - intros s. apply HR.
  - intros s. destruct (isCenterInX s);
      repeat apply follows_and_then; auto using follows_ret.
Qed.

Lemma follows_run_queries (R : RunProperty) :
  composable R →
  (∀ q, follows R (run_query q)) → ∀ qs, follows R (run_queries qs).
Proof.
  intros HR Hq qs. induction qs as [ | q qs IH ]; cbn [run_queries].
  - now apply follows_ret.
  - apply follows_bind; auto.
Qed.

(** *** The bits of the used slots *)

Lemma masks_disjoint (c c' : Computation) :
  c ≠ c' → Z.land (mask_of c) (mask_of c') = 0.
Proof. destruct c, c'; intros H; try reflexivity; congruence. Qed.

Lemma mask_nonzero (c : Computation) : mask_of c ≠ 0.
Proof. destruct c; discriminate. Qed.

Lemma used_mask_low (c : Computation) :
  c ∈ used_slots → mask_incl (mask_of c) 0xF.
Proof.
  intros Hc. apply mask_incl_land. unfold used_slots in Hc.
  repeat (apply elem_of_cons in Hc as [-> | Hc]; [ reflexivity | ]).
  inversion Hc.
Qed.

(** What a miss on the slot [c] does to the bits of a slot [c']. *)
Lemma evaluated_after_miss (c c' : Computation) (v : Z) (s : Analyzer) :
  evaluated c'
    (set_myResults v
       (set_myComputations (Z.lor (myComputations s) (mask_of c)) s))
  = if decide (c' = c) then true else evaluated c' s.
Proof.
  unfold evaluated. cbn. case_decide as Hc.
  - subst c'. rewrite land_lor_same. unfold int_to_bool.
    apply negb_true_iff, Z.eqb_neq, mask_nonzero.
  - rewrite land_lor_other; [ reflexivity | ].
    apply masks_disjoint. congruence.
Qed.

Lemma recorded_after_miss (c c' : Computation) (ok : bool) (s : Analyzer) :
  c' ≠ c →
  recorded c'
    (set_myResults
       (if ok then Z.lor (myResults s) (mask_of c) else myResults s)
       (set_myComputations (Z.lor (myComputations s) (mask_of c)) s))
  = recorded c' s.
Proof.
  intros Hc. unfold recorded. cbn. destruct ok; [ | reflexivity ].
  rewrite land_lor_other; [ reflexivity | ].
  apply masks_disjoint. congruence.
Qed.

(** *** Answers are kept *)

Lemma keeps_answers_composable : composable (λ s s' _, keeps_answers s s').
Proof.
  split.
  - intros s. split; [ apply same_but_masks_refl | auto ].
  - intros s1 s2 s3 _ _ [F12 K12] [F23 K23]. split.
    + eapply same_but_masks_trans; eassumption.
    + intros c Hc Hev. destruct (K12 c Hc Hev) as [Hev2 Hrec2].
      destruct (K23 c Hc Hev2) as [Hev3 Hrec3].
      split; [ exact Hev3 | congruence ].
Qed.

Lemma memoized_keeps_answers c complement test entry with_center s :
  keeps_answers s
    (state_of (memoized (mask_of c) complement test entry with_center s)).
Proof.
  split; [ apply memoized_frame | ].
  intros c' Hc' Hev. unfold memoized.
  destruct (int_to_bool (Z.land (myComputations s) (mask_of c))) eqn:E;
    cbn [state_of fst snd]; [ auto | ].
  assert (Hne : c' ≠ c).
  { intros ->. unfold evaluated in Hev. congruence. }
  rewrite evaluated_after_miss, recorded_after_miss by exact Hne.
  rewrite decide_False by exact Hne. auto.
Qed.

Lemma run_queries_keeps_answers (qs : list Query) (s : Analyzer) :
  keeps_answers s (state_of (run_queries qs s)).
Proof.
  apply (follows_run_queries (λ s s' _, keeps_answers s s')
           keeps_answers_composable).
  apply follows_run_query; [ apply keeps_answers_composable | ].
  intros c complement zero with_center _ s'. apply memoized_keeps_answers.
Qed.

(** A hit in terms of the slot's two bits. *)
Lemma memoized_hit_slot c complement test entry with_center s :
  evaluated c s = true →
  memoized (mask_of c) complement test entry with_center s
  = (recorded c s, s, []).
Proof. apply memoized_hit. Qed.

(** After a memoized call its slot is evaluated and records the value
    returned. *)
Lemma memoized_slot_after c complement test entry with_center s :
  mask_incl (myResults s) (myComputations s) →
  let o := memoized (mask_of c) complement test entry with_center s in
  evaluated c (state_of o) = true ∧ recorded c (state_of o) = retval o.
Proof.
  intros Hincl o. split.
  - apply memoized_evaluated, mask_nonzero.
  - apply memoized_recorded; [ apply mask_nonzero | exact Hincl ].
Qed.

(** The composite predicate on the list it reads. *)
Lemma isFullyConvexCollapsible_two_tests (s : Analyzer) :
  isFullyConvexCollapsible s
  = if myCenterInX s
    then if empty (myLocalX s) then (false, s, [])
         else with_then_without false FullConvexity_X_with_center
                FullConvexity_X_without_center s
    else if empty (myLocalCompX s) then (false, s, [])
         else with_then_without true FullConvexity_CompX_with_center
                FullConvexity_CompX_without_center s.
Proof.
  rewrite isFullyConvexCollapsible_outcome. cbv zeta.
  unfold with_then_without. destruct (myCenterInX s); reflexivity.
Qed.

(** Run again in a state that kept the answers, the two tests give the
    same value from the cache. *)
Lemma with_then_without_again complement c1 c2 (s s2 : Analyzer) :
  c1 ∈ used_slots → c2 ∈ used_slots →
  mask_incl (myResults s) (myComputations s) →
  keeps_answers (state_of (with_then_without complement c1 c2 s)) s2 →
  with_then_without complement c1 c2 s2
  = (retval (with_then_without complement c1 c2 s), s2, []).
Proof.
  intros Hc1 Hc2 Hincl. unfold with_then_without.
  destruct (memoized_slot_after c1 complement dc_isFullyConvex
              Call_isFullyConvex true s Hincl) as [Hev1 Hrec1].
  pose proof (memoized_mask_incl (mask_of c1) complement dc_isFullyConvex
                Call_isFullyConvex true s Hincl) as Hincl1.
  pose proof (memoized_keeps_answers c1 complement dc_isFullyConvex
                Call_isFullyConvex true s) as [_ K01].
  set (o1 := memoized (mask_of c1) complement _ _ true s) in *.
  destruct (retval o1) eqn:Hv1.
  - destruct (memoized_slot_after c2 complement dc_isFullyConvex
                Call_isFullyConvex false (state_of o1) Hincl1)
      as [Hev2 Hrec2].
    pose proof (memoized_keeps_answers c2 complement dc_isFullyConvex
                  Call_isFullyConvex false (state_of o1)) as [_ K12].
    set (o2 := memoized (mask_of c2) complement _ _ false (state_of o1)) in *.
    cbn [state_of retval fst snd]. intros [_ K].
    destruct (K12 c1 Hc1 Hev1) as [Hev1' Hrec1'].
    destruct (K c1 Hc1 Hev1') as [Hev1'' Hrec1''].
    destruct (K c2 Hc2 Hev2) as [Hev2'' Hrec2''].
    rewrite (memoized_hit_slot c1 _ _ _ _ s2 Hev1'').
    cbn [state_of retval calls fst snd].
    rewrite Hrec1'', Hrec1', Hrec1.
    rewrite (memoized_hit_slot c2 _ _ _ _ s2 Hev2'').
    cbn [state_of retval calls fst snd app].
    unfold state_of, retval in *. now rewrite Hrec2'', Hrec2.
  - cbn [state_of retval fst snd]. intros [_ K].
    destruct (K c1 Hc1 Hev1) as [Hev1'' Hrec1''].
    rewrite (memoized_hit_slot c1 _ _ _ _ s2 Hev1'').
    cbn [state_of retval calls fst snd].
    now rewrite Hrec1'', Hrec1.
Qed.

(** X1. Once a predicate has answered, its answer stays: after a call of
    any of the five predicates and any further sequence of predicate calls,
    the same call returns the same value, makes no oracle call and leaves
    the state as it is.  The state at the start is one whose recorded
    results lie within the evaluated bits. *)
Theorem answers_are_kept (q : Query) (qs : list Query) (s : Analyzer) :
  mask_incl (myResults s) (myComputations s) →
  let first := run_query q s in
  let between := run_queries qs (state_of first) in
  let again := run_query q (state_of between) in
  retval again = retval first
  ∧ calls again = []
  ∧ state_of again = state_of between.
Proof.
  intros Hincl. cbv zeta.
  assert (Hall : ∀ o1 : Outcome bool,
            run_query q s = o1 →
            run_query q (state_of (run_queries qs (state_of o1)))
            = (retval o1, state_of (run_queries qs (state_of o1)), []));
    [ | now rewrite (Hall _ eq_refl) ].
  intros o1 Hfirst.
  pose proof (run_queries_keeps_answers qs (state_of o1)) as Hkept.
  set (s2 := state_of (run_queries qs (state_of o1))) in *.
  destruct (slot q) as [c | ] eqn:Hslot.
  - destruct (accessor_memoized q c Hslot)
      as (Hc & complement & zero & b & Heq).
    rewrite Heq in *. subst o1.
    destruct (memoized_slot_after c complement (oracle_test zero)
                (oracle_entry zero) b s Hincl) as [Hev Hrec].
    destruct Hkept as [_ K]. destruct (K c Hc Hev) as [Hev' Hrec'].
    rewrite (memoized_hit_slot c _ _ _ _ _ Hev'). now rewrite Hrec', Hrec.
  - destruct q; try discriminate. cbn [run_query] in *.
    assert (Hframe : same_but_masks s s2).
    { eapply same_but_masks_trans; [ | apply Hkept ].
      rewrite <- Hfirst. apply (run_query_frame Q_isFullyConvexCollapsible). }
    destruct Hframe as (HX & HC & _ & Hin & _ & _).
    rewrite isFullyConvexCollapsible_two_tests in *.
    rewrite Hin, HX, HC.
    assert (HA : FullConvexity_X_with_center ∈ used_slots)
      by (unfold used_slots; repeat constructor).
    assert (HB : FullConvexity_X_without_center ∈ used_slots)
      by (unfold used_slots; repeat constructor).
    assert (HA' : FullConvexity_CompX_with_center ∈ used_slots)
      by (unfold used_slots; repeat constructor).
    assert (HB' : FullConvexity_CompX_without_center ∈ used_slots)
      by (unfold used_slots; repeat constructor).
    destruct (myCenterInX s).
    + destruct (empty (myLocalX s)); [ now subst o1 | ].
      subst o1. now apply with_then_without_again.
    + destruct (empty (myLocalCompX s)); [ now subst o1 | ].
      subst o1. now apply with_then_without_again.
Qed.

Lemma answers_are_kept_witness :
  let first := run_query Q_isFullyConvexCollapsible Examples.centered in
  let between :=
    run_queries [Q_is0Convex true; Q_isComplementaryFullyConvex false]
                (state_of first) in
  let again := run_query Q_isFullyConvexCollapsible (state_of between) in
  retval again = retval first
  ∧ calls again = []
  ∧ state_of again = state_of between.
Proof.
  apply (answers_are_kept Q_isFullyConvexCollapsible
           [Q_is0Convex true; Q_isComplementaryFullyConvex false]
           Examples.centered).
  apply mask_incl_land. reflexivity.
Defined.

(** *** The number of oracle calls *)

Lemma unevaluated_slots_le_4 (s : Analyzer) : (unevaluated_slots s ≤ 4)%nat.
Proof.
  unfold unevaluated_slots, used_slots. cbn [List.filter].
  repeat match goal with
         | |- context [negb (evaluated ?c s)] => destruct (evaluated c s)
         end; cbn; lia.
Qed.

Lemma unevaluated_after_miss (c : Computation) (v : Z) (s : Analyzer) :
  c ∈ used_slots →
  evaluated c s = false →
  (unevaluated_slots
     (set_myResults v
        (set_myComputations (Z.lor (myComputations s) (mask_of c)) s))
   + 1 = unevaluated_slots s)%nat.
Proof.
  intros Hc Hev. unfold unevaluated_slots, used_slots. cbn [List.filter].
  rewrite !evaluated_after_miss. unfold used_slots in Hc.
  repeat (apply elem_of_cons in Hc as [-> | Hc];
          [ repeat case_decide; try congruence; rewrite Hev;
            repeat match goal with
                   | |- context [negb (evaluated ?c' s)] =>
                       destruct (evaluated c' s)
                   end; cbn; lia | ]).
  inversion Hc.
Qed.

Lemma pays_per_slot_composable : composable pays_per_slot.
Proof.
  unfold pays_per_slot. split.
  - intros s. reflexivity.
  - intros s1 s2 s3 l1 l2 H12 H23. rewrite length_app. lia.
Qed.

Lemma memoized_pays_per_slot c complement test entry with_center :
  c ∈ used_slots →
  follows pays_per_slot
          (memoized (mask_of c) complement test entry with_center).
Proof.
  intros Hc s. unfold pays_per_slot, memoized.
  destruct (int_to_bool (Z.land (myComputations s) (mask_of c))) eqn:E;
    cbn [state_of calls fst snd length]; [ reflexivity | ].
  match goal with
  | |- context [set_myResults ?v _] =>
      pose proof (unevaluated_after_miss c v s Hc E)
  end.
  lia.
Qed.

(** X2. A sequence of predicate calls makes exactly as many oracle calls
    as slots become evaluated, so never more than were unevaluated at its
    start, and never more than four, however long the sequence and
    whichever of the predicates it calls. *)
Theorem oracle_calls_bounded (qs : list Query) (s : Analyzer) :
  (length (calls (run_queries qs s))
   + unevaluated_slots (state_of (run_queries qs s))
   = unevaluated_slots s)%nat
  ∧ (length (calls (run_queries qs s)) ≤ unevaluated_slots s)%nat
  ∧ (length (calls (run_queries qs s)) ≤ 4)%nat.
Proof.
  assert (H : pays_per_slot s (state_of (run_queries qs s))
                (calls (run_queries qs s))).
  { apply (follows_run_queries pays_per_slot pays_per_slot_composable).
    apply follows_run_query; [ apply pays_per_slot_composable | ].
    intros c complement zero with_center Hc.
    now apply memoized_pays_per_slot. }
  unfold pays_per_slot in H. pose proof (unevaluated_slots_le_4 s).
  split; [ exact H | lia ].
Qed.

(** *** What the oracle is asked *)

Lemma asks_about_neighborhood_composable : composable asks_about_neighborhood.
Proof.
  unfold asks_about_neighborhood. split.
  - intros s. split; [ apply same_but_masks_refl | constructor ].
  - intros s1 s2 s3 l1 l2 [F12 A12] [F23 A23]. split.
    + eapply same_but_masks_trans; eassumption.
    + apply Forall_app. split; [ exact A12 | ].
      destruct F12 as (HX & HC & Hc & _). unfold neighborhood_ranges in *.
      now rewrite HX, HC, Hc in A23.
Qed.

Lemma memoized_asks_about_neighborhood mask complement zero with_center :
  follows asks_about_neighborhood
          (memoized mask complement (oracle_test zero) (oracle_entry zero)
                    with_center).
Proof.
  intros s. split; [ apply memoized_frame | ].
  unfold memoized. destruct (int_to_bool _); cbn [calls snd];
    [ constructor | ].
  apply Forall_singleton. unfold neighborhood_ranges.
  destruct zero, complement, with_center; cbn; set_solver.
Qed.

(** X3. Whatever predicates are called and in whatever order, the oracle
    is only ever asked about four ranges: [myLocalX] and [myLocalCompX] as
    stored at the start, and each of them with the center added at its end;
    and the stored lists, the center, the domain and the oracle are the
    same after the sequence (only the masks have moved). *)
Theorem oracle_is_asked_about_the_neighborhood
    (qs : list Query) (s : Analyzer) :
  Forall (λ call,
            oracle_argument call
            ∈ [ myLocalX s; myLocalX s ++ [myCenter s];
                myLocalCompX s; myLocalCompX s ++ [myCenter s] ])
         (calls (run_queries qs s))
  ∧ same_but_masks s (state_of (run_queries qs s)).
Proof.
  assert (H : asks_about_neighborhood s (state_of (run_queries qs s))
                (calls (run_queries qs s))).
  { apply (follows_run_queries asks_about_neighborhood
             asks_about_neighborhood_composable).
    apply follows_run_query; [ apply asks_about_neighborhood_composable | ].
    intros c complement zero with_center _.
    apply memoized_asks_about_neighborhood. }
  destruct H as [Hframe Hcalls]. split; assumption.
Qed.

(** *** The bits that move *)

Lemma gains_low_bits_composable : composable gains_low_bits.
Proof.
  unfold gains_low_bits. split.
  - intros s. exists 0, 0. rewrite !Z.lor_0_r.
    split_and!; auto using mask_incl_zero.
  - intros s1 s2 s3 _ _ (d1 & d1' & Hlow1 & Hin1 & Hc1 & Hr1)
      (d2 & d2' & Hlow2 & Hin2 & Hc2 & Hr2).
    exists (Z.lor d1 d2), (Z.lor d1' d2'). split_and!.
    + intros n Hn. rewrite Z.lor_spec in Hn.
      apply orb_true_iff in Hn as [Hn | Hn]; auto.
    + intros n Hn. rewrite Z.lor_spec in *.
      apply orb_true_iff in Hn as [Hn | Hn].
      * now rewrite (Hin1 n Hn).
      * rewrite (Hin2 n Hn). apply orb_true_r.
    + now rewrite Hc2, Hc1, Z.lor_assoc.
    + now rewrite Hr2, Hr1, Z.lor_assoc.
Qed.

Lemma memoized_gains_low_bits c complement test entry with_center :
  c ∈ used_slots →
  follows gains_low_bits
          (memoized (mask_of c) complement test entry with_center).
Proof.
  intros Hc s. unfold gains_low_bits, memoized.
  destruct (int_to_bool _); cbn [state_of fst snd].
  - exists 0, 0. rewrite !Z.lor_0_r. split_and!; auto using mask_incl_zero.
  - destruct (test _ _); cbn.
    + exists (mask_of c), (mask_of c).
      split_and!; auto using used_mask_low. intros n Hn. exact Hn.
    + exists (mask_of c), 0. rewrite Z.lor_0_r.
      split_and!; auto using used_mask_low, mask_incl_zero.
Qed.

(** X5. A sequence of predicate calls changes the two masks only by
    setting bits among [0x1], [0x2], [0x4] and [0x8]: [myComputations]
    gains a set [d] of them and [myResults] a subset of [d].  So no bit is
    ever cleared, and the bits [0x10] to [0x80] of the [Convexity_*]
    enumerators are never set. *)
Theorem masks_gain_low_bits_only (qs : list Query) (s : Analyzer) :
  let s' := state_of (run_queries qs s) in
  (∃ d d', mask_incl d 0xF
           ∧ mask_incl d' d
           ∧ myComputations s' = Z.lor (myComputations s) d
           ∧ myResults s' = Z.lor (myResults s) d')
  ∧ mask_incl (myComputations s) (myComputations s')
  ∧ mask_incl (myResults s) (myResults s')
  ∧ Z.land (myComputations s') 0xF0 = Z.land (myComputations s) 0xF0
  ∧ Z.land (myResults s') 0xF0 = Z.land (myResults s) 0xF0.
Proof.
  intros s'.
  assert (H : gains_low_bits s s' (calls (run_queries qs s))).
  { apply (follows_run_queries gains_low_bits gains_low_bits_composable).
    apply follows_run_query; [ apply gains_low_bits_composable | ].
    intros c complement zero with_center Hc.
    now apply memoized_gains_low_bits. }
  split; [ exact H | ].
  destruct H as (d & d' & Hlow & Hin & Hc & Hr).
  assert (Hd : Z.land d 0xF0 = 0).
  { apply Z.bits_inj'. intros n _. rewrite Z.land_spec, Z.bits_0.
    destruct (Z.testbit d n) eqn:E; [ | reflexivity ].
    pose proof (Hlow n E) as H15. cbn [andb].
    destruct (Z.testbit 240 n) eqn:E240; [ | reflexivity ].
    assert (Hboth : Z.testbit (Z.land 15 240) n = true)
      by (rewrite Z.land_spec, H15, E240; reflexivity).
    cbn in Hboth. rewrite Z.bits_0 in Hboth. discriminate. }
  assert (Hd' : Z.land d' 0xF0 = 0).
  { apply (land_zero_of_incl d' d _ Hin Hd). }
  rewrite Hc, Hr. split_and!.
  - intros n Hn. rewrite Z.lor_spec, Hn. reflexivity.
  - intros n Hn. rewrite Z.lor_spec, Hn. reflexivity.
  - now apply land_lor_other.
  - now apply land_lor_other.
Qed.

(** *** Predicates that share a mask *)

(** X6. The two predicates that take the same mask answer for each other:
    after [isFullyConvex( b )], [is0Convex( b )] returns the value the
    former returned, without calling the 0-convexity test, and the other
    way round; likewise for [isComplementaryFullyConvex( b )] and
    [isComplementary0Convex( b )].  The state at the start is one whose
    recorded results lie within the evaluated bits. *)
Theorem predicates_of_one_mask_answer_for_each_other
    (b : bool) (s : Analyzer) :
  mask_incl (myResults s) (myComputations s) →
  (let first := isFullyConvex b s in
   is0Convex b (state_of first) = (retval first, state_of first, []))
  ∧ (let first := is0Convex b s in
     isFullyConvex b (state_of first) = (retval first, state_of first, []))
  ∧ (let first := isComplementaryFullyConvex b s in
     isComplementary0Convex b (state_of first)
     = (retval first, state_of first, []))
  ∧ (let first := isComplementary0Convex b s in
     isComplementaryFullyConvex b (state_of first)
     = (retval first, state_of first, [])).
Proof.
  intros Hincl. cbv zeta.
  rewrite !isFullyConvex_memoized, !is0Convex_memoized,
    !isComplementaryFullyConvex_memoized, !isComplementary0Convex_memoized.
  split_and!; apply memoized_then_any_test; try exact Hincl;
    destruct b; discriminate.
Qed.

Lemma predicates_of_one_mask_answer_for_each_other_witness :
  let first := isComplementary0Convex true Examples.centered in
  isComplementaryFullyConvex true (state_of first)
  = (retval first, state_of first, []).
Proof.
  apply (predicates_of_one_mask_answer_for_each_other true Examples.centered).
  apply mask_incl_land. reflexivity.
Defined.

(** *** The composite predicate *)

(** A memoized call of the full convexity test makes no oracle call or
    one, on the list it reads. *)
Lemma memoized_calls_cases (mask : Z) (complement with_center : bool)
    (s : Analyzer) :
  let l := if complement then myLocalCompX s else myLocalX s in
  let pts := if with_center then l ++ [myCenter s] else l in
  let o := memoized mask complement dc_isFullyConvex Call_isFullyConvex
             with_center s in
  calls o = [] ∨ calls o = [Call_isFullyConvex pts].
Proof. cbv zeta. unfold memoized. destruct (int_to_bool _); cbn; auto. Qed.

Lemma with_then_without_calls (complement : bool) (c1 c2 : Computation)
    (s : Analyzer) :
  let l := if complement then myLocalCompX s else myLocalX s in
  let o := with_then_without complement c1 c2 s in
  let o1 := memoized (mask_of c1) complement dc_isFullyConvex
              Call_isFullyConvex true s in
  (calls o = []
   ∨ calls o = [Call_isFullyConvex (l ++ [myCenter s])]
   ∨ calls o = [Call_isFullyConvex l]
   ∨ calls o = [Call_isFullyConvex (l ++ [myCenter s]);
                Call_isFullyConvex l])
  ∧ (retval o1 = false → o = (false, state_of o1, calls o1)).
Proof.
  cbv zeta. unfold with_then_without.
  pose proof (memoized_calls_cases (mask_of c1) complement true s) as H1.
  destruct (memoized_frame (mask_of c1) complement dc_isFullyConvex
              Call_isFullyConvex true s) as (HX & HC & Hc & _).
  set (o1 := memoized (mask_of c1) complement _ _ true s) in *.
  pose proof (memoized_calls_cases (mask_of c2) complement false
                (state_of o1)) as H2.
  cbv zeta in H1, H2. rewrite HX, HC in H2.
  set (o2 := memoized (mask_of c2) complement _ _ false (state_of o1)) in *.
  destruct (retval o1).
  - split; [ | discriminate ].
    repeat match goal with
           | |- context [calls (?a, ?b, ?c)] =>
               change (calls (a, b, c)) with c
           end.
    destruct H1 as [-> | ->], H2 as [-> | ->]; cbn [app]; auto.
  - split; [ | reflexivity ].
    repeat match goal with
           | |- context [calls (?a, ?b, ?c)] =>
               change (calls (a, b, c)) with c
           end.
    destruct H1 as [-> | ->]; auto.
Qed.

(** X4. [isFullyConvexCollapsible()] only ever runs the full convexity
    test, at most twice, on the list with the center first and on the list
    alone second; and when the test with the center gives false on a
    non-empty list, the composite is that one call and nothing more: the
    test without the center is not run and its slot is left as it was. *)
Theorem isFullyConvexCollapsible_tests_in_order (s : Analyzer) :
  let l := if myCenterInX s then myLocalX s else myLocalCompX s in
  let with_center :=
    if myCenterInX s then isFullyConvex true s
    else isComplementaryFullyConvex true s in
  let o := isFullyConvexCollapsible s in
  (calls o = []
   ∨ calls o = [Call_isFullyConvex (l ++ [myCenter s])]
   ∨ calls o = [Call_isFullyConvex l]
   ∨ calls o = [Call_isFullyConvex (l ++ [myCenter s]);
                Call_isFullyConvex l])
  ∧ (l ≠ [] → retval with_center = false →
     o = (false, state_of with_center, calls with_center)).
Proof.
  cbv zeta. rewrite isFullyConvexCollapsible_two_tests.
  rewrite isFullyConvex_memoized, isComplementaryFullyConvex_memoized.
  destruct (myCenterInX s).
  - destruct (myLocalX s) as [ | p l ] eqn:Hl; cbn [empty];
      [ split; [ auto | congruence ] | ].
    rewrite <- Hl.
    destruct (with_then_without_calls false FullConvexity_X_with_center
                FullConvexity_X_without_center s) as [Hcalls Hfalse].
    split; [ exact Hcalls | intros _; exact Hfalse ].
  - destruct (myLocalCompX s) as [ | p l ] eqn:Hl; cbn [empty];
      [ split; [ auto | congruence ] | ].
    rewrite <- Hl.
    destruct (with_then_without_calls true FullConvexity_CompX_with_center
                FullConvexity_CompX_without_center s) as [Hcalls Hfalse].
    split; [ exact Hcalls | intros _; exact Hfalse ].
Qed.

Lemma isFullyConvexCollapsible_tests_in_order_witness :
  isFullyConvexCollapsible Examples.centered
  = (false, state_of (isFullyConvex true Examples.centered),
     calls (isFullyConvex true Examples.centered)).
Proof.
  apply (proj2 (isFullyConvexCollapsible_tests_in_order Examples.centered));
    [ discriminate | reflexivity ].
Defined.

(** *** Calls on different slots *)

(** Two memoized calls on disjoint masks give the same values, make the
    same oracle calls and leave the same state in either order. *)
Lemma memoized_commute m1 complement1 test1 entry1 with_center1
    m2 complement2 test2 entry2 with_center2 (s : Analyzer) :
  Z.land m1 m2 = 0 →
  let call1 := memoized m1 complement1 test1 entry1 with_center1 in
  let call2 := memoized m2 complement2 test2 entry2 with_center2 in
  retval (call1 (state_of (call2 s))) = retval (call1 s)
  ∧ calls (call1 (state_of (call2 s))) = calls (call1 s)
  ∧ retval (call2 (state_of (call1 s))) = retval (call2 s)
  ∧ calls (call2 (state_of (call1 s))) = calls (call2 s)
  ∧ state_of (call2 (state_of (call1 s)))
    = state_of (call1 (state_of (call2 s))).
Proof.
  intros H12.
  assert (H21 : Z.land m2 m1 = 0) by now rewrite Z.land_comm.
  cbv zeta. unfold memoized, retval, state_of, calls.
  destruct (int_to_bool (Z.land (myComputations s) m1)) eqn:E1,
           (int_to_bool (Z.land (myComputations s) m2)) eqn:E2;
    cbn; rewrite ?(land_lor_other _ _ _ H12), ?(land_lor_other _ _ _ H21),
           ?E1, ?E2; cbn.
  - auto.
  - destruct (test2 _ _); cbn;
      rewrite ?(land_lor_other _ _ _ H21); auto.
  - destruct (test1 _ _); cbn;
      rewrite ?(land_lor_other _ _ _ H12); auto.
  - split_and!; try reflexivity.
    destruct (test1 _ _), (test2 _ _);
      unfold set_myResults, set_myComputations; cbn;
      rewrite <- !Z.lor_assoc, (Z.lor_comm m2 m1); reflexivity.
Qed.

(** X7. Calls of two of the four predicates that work on different slots
    do not depend on their order: each returns the same value and makes
    the same oracle calls whether it comes first or second, and the state
    after the two is the same. *)
Theorem calls_on_different_slots_commute
    (q1 q2 : Query) (c1 c2 : Computation) (s : Analyzer) :
  slot q1 = Some c1 → slot q2 = Some c2 → c1 ≠ c2 →
  let first1 := run_query q1 s in
  let then2 := run_query q2 (state_of first1) in
  let first2 := run_query q2 s in
  let then1 := run_query q1 (state_of first2) in
  retval then1 = retval first1
  ∧ calls then1 = calls first1
  ∧ retval then2 = retval first2
  ∧ calls then2 = calls first2
  ∧ state_of then2 = state_of then1.
Proof.
  intros Hs1 Hs2 Hne. cbv zeta.
  destruct (accessor_memoized q1 c1 Hs1) as (_ & k1 & z1 & b1 & Heq1).
  destruct (accessor_memoized q2 c2 Hs2) as (_ & k2 & z2 & b2 & Heq2).
  rewrite !Heq1, !Heq2.
  apply (memoized_commute (mask_of c1) k1 (oracle_test z1) (oracle_entry z1)
           b1 (mask_of c2) k2 (oracle_test z2) (oracle_entry z2) b2 s).
  now apply masks_disjoint.
Qed.

Lemma calls_on_different_slots_commute_witness :
  let q1 := Q_isFullyConvex true in
  let q2 := Q_isComplementary0Convex false in
  let first1 := run_query q1 Examples.centered in
  let then2 := run_query q2 (state_of first1) in
  let first2 := run_query q2 Examples.centered in
  let then1 := run_query q1 (state_of first2) in
  retval then1 = retval first1
  ∧ calls then1 = calls first1
  ∧ retval then2 = retval first2
  ∧ calls then2 = calls first2
  ∧ state_of then2 = state_of then1.
Proof.
  apply (calls_on_different_slots_commute
           (Q_isFullyConvex true) (Q_isComplementary0Convex false)
           FullConvexity_X_with_center FullConvexity_CompX_without_center
           Examples.centered);
    [ reflexivity | reflexivity | discriminate ].
Defined.

(** *** First calls *)

(** X8. The first call on a slot asks the oracle: when the slot's bit is
    not yet evaluated, each of the four predicates returns the answer of
    its own oracle test (full convexity or 0-convexity) on its own list
    ([myLocalX] or [myLocalCompX]), with the center added at the end when
    [with_center] is true, and makes that one oracle call. *)
Theorem first_call_returns_the_oracle_answer (b : bool) (s : Analyzer) :
  let range := λ l : PointRange, if b then l ++ [myCenter s] else l in
  let on_X := if b then FullConvexity_X_with_center
              else FullConvexity_X_without_center in
  let on_CompX := if b then FullConvexity_CompX_with_center
                  else FullConvexity_CompX_without_center in
  (evaluated on_X s = false →
   isFullyConvex b s
   = (dc_isFullyConvex (myDigConv s) (range (myLocalX s)),
      state_of (isFullyConvex b s),
      [Call_isFullyConvex (range (myLocalX s))])
   ∧ is0Convex b s
     = (dc_is0Convex (myDigConv s) (range (myLocalX s)),
        state_of (is0Convex b s),
        [Call_is0Convex (range (myLocalX s))]))
  ∧ (evaluated on_CompX s = false →
     isComplementaryFullyConvex b s
     = (dc_isFullyConvex (myDigConv s) (range (myLocalCompX s)),
        state_of (isComplementaryFullyConvex b s),
        [Call_isFullyConvex (range (myLocalCompX s))])
     ∧ isComplementary0Convex b s
       = (dc_is0Convex (myDigConv s) (range (myLocalCompX s)),
          state_of (isComplementary0Convex b s),
          [Call_is0Convex (range (myLocalCompX s))])).
Proof.
  cbv zeta.
  rewrite !isFullyConvex_memoized, !is0Convex_memoized,
    !isComplementaryFullyConvex_memoized, !isComplementary0Convex_memoized.
  unfold evaluated.
  split; intros Hmiss; (split; unfold memoized, state_of);
    destruct b; cbn [mask_of] in Hmiss; rewrite Hmiss; reflexivity.
Qed.

Lemma first_call_returns_the_oracle_answer_witness :
  isComplementary0Convex true Examples.centered
  = (true, state_of (isComplementary0Convex true Examples.centered),
     [Call_is0Convex [[0; 2]]]).
Proof.
  apply (proj2 (first_call_returns_the_oracle_answer true Examples.centered)).
  reflexivity.
Defined.

(** X9. When neither of the two slots it reads is evaluated yet (as after
    a re-centering), [isFullyConvexCollapsible()] returns the conjunction
    of: the list is not empty, the oracle finds the list with the center
    fully convex, and the oracle finds the list alone fully convex; the
    list being [myLocalX] for a center in X and [myLocalCompX]
    otherwise. *)
Theorem isFullyConvexCollapsible_on_fresh_slots (s : Analyzer) :
  let l := if myCenterInX s then myLocalX s else myLocalCompX s in
  let c1 := if myCenterInX s then FullConvexity_X_with_center
            else FullConvexity_CompX_with_center in
  let c2 := if myCenterInX s then FullConvexity_X_without_center
            else FullConvexity_CompX_without_center in
  evaluated c1 s = false →
  evaluated c2 s = false →
  retval (isFullyConvexCollapsible s)
  = negb (empty l)
    && dc_isFullyConvex (myDigConv s) (l ++ [myCenter s])
    && dc_isFullyConvex (myDigConv s) l.
Proof.
  cbv zeta. rewrite isFullyConvexCollapsible_two_tests.
  assert (Hgen : ∀ (complement : bool) (c1 c2 : Computation),
            c1 ≠ c2 →
            evaluated c1 s = false → evaluated c2 s = false →
            let l := if complement then myLocalCompX s else myLocalX s in
            retval (with_then_without complement c1 c2 s)
            = dc_isFullyConvex (myDigConv s) (l ++ [myCenter s])
              && dc_isFullyConvex (myDigConv s) l).
  { intros complement c1 c2 Hne E1 E2. cbv zeta.
    unfold with_then_without.
    destruct (memoized_miss (mask_of c1) complement dc_isFullyConvex
                Call_isFullyConvex true s E1) as (Hv1 & _).
    destruct (memoized_frame (mask_of c1) complement dc_isFullyConvex
                Call_isFullyConvex true s) as (HX & HC & _ & _ & _ & Hd).
    destruct (memoized_other_bit (mask_of c2) (mask_of c1) complement
                dc_isFullyConvex Call_isFullyConvex true s
                (masks_disjoint c1 c2 Hne)) as [Hbit _].
    set (o1 := memoized (mask_of c1) complement _ _ true s) in *.
    rewrite Hv1.
    destruct (dc_isFullyConvex (myDigConv s) _); [ | reflexivity ].
    cbn [andb]. unfold retval at 1. cbn [fst].
    assert (E2' : int_to_bool (Z.land (myComputations (state_of o1))
                                      (mask_of c2)) = false).
    { cbv zeta in Hbit. rewrite Hbit. exact E2. }
    destruct (memoized_miss (mask_of c2) complement dc_isFullyConvex
                Call_isFullyConvex false (state_of o1) E2') as (Hv2 & _).
    rewrite Hv2, HX, HC, Hd. reflexivity. }
  destruct (myCenterInX s); intros E1 E2.
  - destruct (empty (myLocalX s)); [ reflexivity | ].
    cbn [negb andb]. now apply (Hgen false).
  - destruct (empty (myLocalCompX s)); [ reflexivity | ].
    cbn [negb andb]. now apply (Hgen true).
Qed.

Lemma isFullyConvexCollapsible_on_fresh_slots_witness :
  retval (isFullyConvexCollapsible Examples.centered)
  = negb (empty (myLocalX Examples.centered))
    && dc_isFullyConvex (myDigConv Examples.centered)
         (myLocalX Examples.centered ++ [myCenter Examples.centered])
    && dc_isFullyConvex (myDigConv Examples.centered)
         (myLocalX Examples.centered).
Proof.
  apply (isFullyConvexCollapsible_on_fresh_slots Examples.centered);
    reflexivity.
Defined.

End SessionFacts.
